(** * Cache handlers of nextjs-cache-handler: the composite handler and the
      redis-strings handler

    A shallow embedding of [src/handlers/composite.ts] and of the
    redis-strings handler that follows it in the same source unit, together
    with a model of the Redis client the latter drives.  Asynchronous
    functions become computations in a state-and-exception monad over the
    world they act on. *)

From Stdlib Require Import ZArith Lia Ascii.
From stdpp Require Import base option list strings gmap fin_maps pretty.

Local Open Scope string_scope.
Local Open Scope list_scope.
Local Open Scope Z_scope.

(** ** Values exchanged with the host ([@neshca/cache-handler] types) *)

(** [LifespanParameters]: the handlers read [expireAt] (Unix seconds) only. *)
Record LifespanParameters := mkLifespan { expireAt : Z }.

(** [CacheHandlerValue]: [lifespan] is [LifespanParameters | null]; [value]
    is the opaque payload. *)
Record CacheHandlerValue := mkValue {
  lastModified : Z;
  lifespan : option LifespanParameters;
  tags : list string;
  value : string
}.

(** The second argument of [get]. *)
Record HandlerGetMeta := mkMeta { implicitTags : list string }.

Global Instance LifespanParameters_eq_dec : EqDecision LifespanParameters.
Proof. solve_decision. Defined.
Global Instance CacheHandlerValue_eq_dec : EqDecision CacheHandlerValue.
Proof. solve_decision. Defined.

(** ** Exceptions and the monad of asynchronous computations *)

Inductive Error :=
  | ClientNotReady                 (* thrown by [assertClientIsReady] *)
  | JsonSyntaxError                (* thrown by [JSON.parse], or on what it returned *)
  | InvalidKeyExpirationStrategy (s : string)
  | TooFewHandlers                 (* "Composite requires at least two handlers" *)
  | TypeError                      (* a method called on [undefined] *)
  | ScanDidNotFinish.              (* a scan loop that used up its fuel *)

Inductive Result (A : Type) :=
  | Ok (a : A)
  | Throw (e : Error).
Arguments Ok {A} a.
Arguments Throw {A} e.

(** A computation runs on a world [W], may change it, and either returns or
    throws; what it did to the world before throwing stays done. *)
Definition M (W A : Type) : Type := W → Result A * W.

Definition ret {W A} (a : A) : M W A := λ w, (Ok a, w).
Definition throw {W A} (e : Error) : M W A := λ w, (Throw e, w).
Definition bind {W A B} (m : M W A) (k : A → M W B) : M W B :=
  λ w, match m w with
       | (Ok a, w') => k a w'
       | (Throw e, w') => (Throw e, w')
       end.

Declare Scope async_scope.
Delimit Scope async_scope with async.
Notation "'await' x := m 'in' k" := (bind m (λ x, k))
  (at level 10, x pattern, m at level 100, k at level 200) : async_scope.
Notation "m ;; k" := (bind m (λ _, k))
  (at level 100, right associativity) : async_scope.
Local Open Scope async_scope.

(** [await Promise.all([a, b])] for two operations started in this order:
    both run to their end whatever the other does, and the join rejects
    with the first rejection.  The operations of a [Promise.all] are run
    one after the other, in the order in which the source starts them (which
    is not always the order of the array); their steps are not interleaved. *)
Definition promise_all2 {W} (a b : M W unit) : M W unit :=
  λ w, let '(ra, w1) := a w in
       let '(rb, w2) := b w1 in
       (match ra with Ok _ => rb | Throw e => Throw e end, w2).

(** [await Promise.all(ms)] for a list of operations. *)
Fixpoint promise_all {W} (ms : list (M W unit)) : M W unit :=
  match ms with
  | [] => ret ()
  | m :: rest => promise_all2 m (promise_all rest)
  end.

(** ** The [Handler] interface

    A [get] resolves to an entry or to [null]; [delete] is optional. *)

Record Handler (W : Type) := mkHandler {
  name : string;
  get : string → HandlerGetMeta → M W (option CacheHandlerValue);
  set : string → CacheHandlerValue → M W unit;
  revalidateTag : string → M W unit;
  delete : option (string → M W unit)      (* [delete?] *)
}.
Arguments mkHandler {W}.
Arguments name {W}.
Arguments get {W}.
Arguments set {W}.
Arguments revalidateTag {W}.
Arguments delete {W}.

(** ** The composite handler *)

Module Composite.
Section Composite.
Context {W : Type}.

Record CreateCompositeHandlerOptions := mkOptions {
  handlers : list (Handler W);
  setStrategy : option (CacheHandlerValue → Z)   (* read with [strategy?.] *)
}.

(** [for (const handler of handlers) { ... }] of [get]. *)
Fixpoint get_loop (hs : list (Handler W)) (key : string) (ctx : HandlerGetMeta)
    : M W (option CacheHandlerValue) :=
  match hs with
  | [] => ret None
  | handler :: rest =>
      await value := get handler key ctx in
      match value with
      | Some v => ret (Some v)
      | None => get_loop rest key ctx
      end
  end.

(** [handlers[index]]: [undefined] unless [index] is one of the indices. *)
Definition at_index (hs : list (Handler W)) (index : Z) : option (Handler W) :=
  if (0 <=? index)%Z then hs !! Z.to_nat index else None.

Definition composite_get (o : CreateCompositeHandlerOptions) := get_loop (handlers o).

Definition composite_set (o : CreateCompositeHandlerOptions)
    (key : string) (data : CacheHandlerValue) : M W unit :=
  let index := match setStrategy o with Some strategy => strategy data | None => 0 end in
  match at_index (handlers o) index with
  | Some handler => set handler key data
  | None =>
      match handlers o !! 0%nat with
      | Some handler => set handler key data
      | None => throw TypeError   (* [handlers[0]!] on an empty array *)
      end
  end.

Definition composite_revalidateTag (o : CreateCompositeHandlerOptions) (tag : string)
    : M W unit :=
  promise_all (map (λ handler, revalidateTag handler tag) (handlers o)).

Definition composite_delete (o : CreateCompositeHandlerOptions) (key : string)
    : M W unit :=
  promise_all (map (λ handler,
    match delete handler with Some del => del key | None => ret () end) (handlers o)).

Definition createHandler (o : CreateCompositeHandlerOptions) : Result (Handler W) :=
  if (length (handlers o) <? 2)%nat then Throw TooFewHandlers
  else Ok {| name := "apopro-composite";
             get := composite_get o;
             set := composite_set o;
             revalidateTag := composite_revalidateTag o;
             delete := Some (composite_delete o) |}.
End Composite.
Arguments CreateCompositeHandlerOptions : clear implicits.
End Composite.

(** ** What the redis-strings handler imports

    [JSON], [Number] and [String] are the JavaScript built-ins, [isImplicitTag]
    comes from [@neshca/cache-handler/helpers] and [REVALIDATED_TAGS_KEY] from
    [../constants]; none of them is defined in the handler's source, so the
    handler is embedded over any implementation of them.  Numbers are
    integers here; [None] stands for [NaN] in the two conversions to a
    number, and in the two parsers for a text on which the handler throws:
    one that [JSON.parse] rejects, or one that parses to something other
    than what the cast expects and that is not falsy. *)
Class Imports := {
  JSON_stringify : CacheHandlerValue → string;
  (** [JSON.parse(result) as CacheHandlerValue | null]: [Some None] is a
      parsed value that [!cacheValue] finds falsy. *)
  JSON_parse : string → option (option CacheHandlerValue);
  JSON_stringify_tags : list string → string;
  JSON_parse_tags : string → option (list string);
  Number_toString : Z → string;          (* how a number is sent as a field value *)
  Number : string → option Z;
  Number_parseInt : string → option Z;   (* [Number.parseInt(s, 10)] *)
  isImplicitTag : string → bool;
  REVALIDATED_TAGS_KEY : string
}.

(** ** The Redis client

    String keys hold a value and an optional expiry (Unix seconds); hash keys
    hold fields.  The two kinds of key are kept in two maps: cache keys are
    taken never to coincide with the names of the hashes the handler keeps.
    A hash without fields does not exist, as in Redis.  Every command is
    answered: the per-command options ([getTimeoutRedisCommandOptions],
    [isolated]) have no counterpart here.  The client applies the commands
    it is handed whatever [isReady] says; only the handler looks at it. *)
Record RedisClient := mkClient {
  isReady : bool;
  strings : gmap string (string * option Z);
  hashes : gmap string (gmap string string)
}.

Inductive Command :=
  | RGet (key : string)
  | RSet (key val : string) (EXAT : option Z)
  | RExpireAt (key : string) (timestamp : Z)
  | RUnlink (keys : list string)
  | RHSet (key field val : string)
  | RHDel (key : string) (fields : list string)
  | RHmGet (key : string) (fields : list string)
  | RHScan (key : string) (cursor : nat) (COUNT : positive).

(** The world of the redis-strings handler: its client, the clock read by
    [Date.now()] (milliseconds) and by the store, and the commands handed to
    the client so far, oldest first. *)
Record World := mkWorld {
  client : RedisClient;
  now : Z;
  issued : list Command
}.

Definition hash_at (c : RedisClient) (key : string) : gmap string string :=
  default ∅ (hashes c !! key).

Definition put_hash (key : string) (h : gmap string string) (c : RedisClient) : RedisClient :=
  {| isReady := isReady c;
     strings := strings c;
     hashes := if decide (h = ∅) then base.delete key (hashes c) else <[key := h]> (hashes c) |}.

Definition put_strings (s : gmap string (string * option Z)) (c : RedisClient) : RedisClient :=
  {| isReady := isReady c; strings := s; hashes := hashes c |}.

(** A string key is there until its expiry is reached. *)
Definition alive (t : Z) (entry : string * option Z) : bool :=
  match entry.2 with
  | None => true
  | Some at_seconds => t <? at_seconds * 1000
  end.

Definition string_at (t : Z) (c : RedisClient) (key : string) : option string :=
  match strings c !! key with
  | Some entry => if alive t entry then Some entry.1 else None
  | None => None
  end.

(** Hand a command to the client: record it, apply [f] to the store. *)
Definition command {A} (cmd : Command) (f : Z → RedisClient → A * RedisClient) : M World A :=
  λ w, let '(a, c) := f (now w) (client w) in
       (Ok a, {| client := c; now := now w; issued := issued w ++ [cmd] |}).

Definition client_get (key : string) : M World (option string) :=
  command (RGet key) (λ t c, (string_at t c key, c)).

Definition client_set (key val : string) (EXAT : option Z) : M World unit :=
  command (RSet key val EXAT) (λ _ c, ((), put_strings (<[key := (val, EXAT)]> (strings c)) c)).

Definition client_expireAt (key : string) (timestamp : Z) : M World unit :=
  command (RExpireAt key timestamp) (λ t c,
    ((), match string_at t c key with
         | Some val => put_strings (<[key := (val, Some timestamp)]> (strings c)) c
         | None => c
         end)).

Definition client_unlink (keys : list string) : M World unit :=
  command (RUnlink keys) (λ _ c, ((), put_strings (foldr base.delete (strings c) keys) c)).

Definition client_hSet (key field val : string) : M World unit :=
  command (RHSet key field val) (λ _ c, ((), put_hash key (<[field := val]> (hash_at c key)) c)).

Definition client_hDel (key : string) (fields : list string) : M World unit :=
  command (RHDel key fields) (λ _ c, ((), put_hash key (foldr base.delete (hash_at c key) fields) c)).

Definition client_hmGet (key : string) (fields : list string) : M World (list (option string)) :=
  command (RHmGet key fields) (λ _ c, (map (λ f, hash_at c key !! f) fields, c)).

(** [HSCAN key cursor COUNT n]: the cursor is a position in the list of the
    hash's fields; the reply carries the next [n] of them and the cursor to
    go on with, [0] once the list is used up. *)
Record ScanReply := mkReply { cursor : nat; tuples : list (string * string) }.

Definition client_hScan (key : string) (cur : nat) (COUNT : positive) : M World ScanReply :=
  command (RHScan key cur COUNT) (λ _ c,
    let fields := map_to_list (hash_at c key) in
    let next := (cur + Pos.to_nat COUNT)%nat in
    ({| cursor := if (next <? length fields)%nat then next else 0%nat;
        tuples := take (Pos.to_nat COUNT) (drop cur fields) |}, c)).

Definition Date_now : M World Z := λ w, (Ok (now w), w).

(** ** The redis-strings handler *)

Module RedisStrings.

Inductive KeyExpirationStrategy :=
  | EXAT
  | EXPIREAT
  | Unrecognized (s : string).       (* what the [default] branch of [set] meets *)

(** [CreateRedisStringsHandlerOptions] without the client, which is part of
    the world.  [revalidateTagQuerySize] is a page size: the scan command
    accepts nothing below 1. *)
Record CreateRedisStringsHandlerOptions := mkOptions {
  keyPrefix : string;
  sharedTagsKey : string;
  sharedTagsTtlKey : string;
  timeoutMs : Z;
  keyExpirationStrategy : KeyExpirationStrategy;
  revalidateTagQuerySize : positive
}.

(** The defaults of [createHandler]'s parameter list. *)
Definition default_options : CreateRedisStringsHandlerOptions :=
  {| keyPrefix := "";
     sharedTagsKey := "__sharedTags__";
     sharedTagsTtlKey := "__sharedTagsTtl__";
     timeoutMs := 5000;
     keyExpirationStrategy := EXPIREAT;
     revalidateTagQuerySize := 10000 |}.

(** [new Set([...])]: the distinct elements, in order of first occurrence. *)
Fixpoint Set_add_all (seen l : list string) : list string :=
  match l with
  | [] => seen
  | x :: rest =>
      if decide (x ∈ seen) then Set_add_all seen rest
      else Set_add_all (seen ++ [x]) rest
  end.
Definition new_Set (l : list string) : list string := Set_add_all [] l.

(** An operation that is [undefined] when its condition fails: [Promise.all]
    passes over it. *)
Definition optional {W} (o : option (M W unit)) : M W unit := default (ret ()) o.

Section Scan.
Context {V : Type} (read : string → option V).

(** [for (const { field, value } of remoteTagsPortion.tuples)
      map.set(field, read(value))], [None] when [read] throws. *)
Fixpoint fill (acc : gmap string V) (ts : list (string * string)) : option (gmap string V) :=
  match ts with
  | [] => Some acc
  | (field, val) :: rest =>
      match read val with
      | Some v => fill (<[field := v]> acc) rest
      | None => None
      end
  end.

(** [do { ... } while (cursor !== 0)], with fuel for the iterations. *)
Fixpoint scan_loop (fuel : nat) (key : string) (COUNT : positive) (cur : nat)
    (acc : gmap string V) : M World (gmap string V) :=
  match fuel with
  | O => throw ScanDidNotFinish
  | S fuel' =>
      await remoteTagsPortion := client_hScan key cur COUNT in
      match fill acc (tuples remoteTagsPortion) with
      | None => throw JsonSyntaxError
      | Some acc' =>
          if (cursor remoteTagsPortion =? 0)%nat then ret acc'
          else scan_loop fuel' key COUNT (cursor remoteTagsPortion) acc'
      end
  end.

(** The whole loop, from cursor [0] and an empty map.  One iteration more
    than the hash has fields is enough for the client above. *)
Definition scan (key : string) (COUNT : positive) : M World (gmap string V) :=
  λ w, scan_loop (S (size (hash_at (client w) key))) key COUNT 0 ∅ w.
End Scan.

Section Handler.
Context `{Imports} (o : CreateRedisStringsHandlerOptions).

Definition assertClientIsReady : M World unit :=
  λ w, if isReady (client w) then (Ok (), w) else (Throw ClientNotReady, w).

Definition tagIndexKey : string := keyPrefix o +:+ sharedTagsKey o.
Definition ttlIndexKey : string := keyPrefix o +:+ sharedTagsTtlKey o.
Definition revalidatedTagsKey : string := keyPrefix o +:+ REVALIDATED_TAGS_KEY.

(** The fields of [tagsMap] whose tag list includes [tag]. *)
Definition fields_tagged (tag : string) (tagsMap : gmap string (list string)) : list string :=
  (filter (λ kv : string * list string, tag ∈ kv.2) (map_to_list tagsMap)).*1.

(** The three deletions are started as [unlink], [hDel] of the tags,
    [hDel] of the TTLs. *)
Definition revalidateTags (tag : string) : M World unit :=
  await tagsMap := scan JSON_parse_tags tagIndexKey (revalidateTagQuerySize o) in
  let tagsToDelete := fields_tagged tag tagsMap in
  let keysToDelete := map (λ key, keyPrefix o +:+ key) tagsToDelete in
  if (length keysToDelete =? 0)%nat then ret ()
  else
    let deleteKeysOperation := client_unlink keysToDelete in
    let updateTagsOperation := client_hDel tagIndexKey tagsToDelete in
    let updateTtlOperation := client_hDel ttlIndexKey tagsToDelete in
    promise_all [deleteKeysOperation; updateTagsOperation; updateTtlOperation].

(** [new Date().getTime() > ttlInSeconds * 1000]; a [NaN] is never exceeded. *)
Definition expired (t : Z) (ttlInSeconds : option Z) : bool :=
  match ttlInSeconds with
  | Some s => s * 1000 <? t
  | None => false
  end.

Definition fields_expired (t : Z) (ttlMap : gmap string (option Z)) : list string :=
  (filter (λ kv : string * option Z, expired t kv.2 = true) (map_to_list ttlMap)).*1.

(** The clock stands still during a call, so [new Date()] is read once
    for the whole [for] loop.  The three deletions are started as [hDel] of
    the TTLs, [hDel] of the tags, [unlink]. *)
Definition revalidateSharedKeys : M World unit :=
  await ttlMap := scan (λ val, Some (Number val)) ttlIndexKey (revalidateTagQuerySize o) in
  await t := Date_now in
  let tagsAndTtlToDelete := fields_expired t ttlMap in
  let keysToDelete := map (λ key, keyPrefix o +:+ key) tagsAndTtlToDelete in
  if (length tagsAndTtlToDelete =? 0)%nat then ret ()
  else
    let updateTtlOperation := client_hDel ttlIndexKey tagsAndTtlToDelete in
    let updateTagsOperation := client_hDel tagIndexKey tagsAndTtlToDelete in
    let deleteKeysOperation := client_unlink keysToDelete in
    promise_all [updateTtlOperation; updateTagsOperation; deleteKeysOperation].

(** [timeString && Number.parseInt(timeString, 10) > cacheValue.lastModified] *)
Definition revalidated_after (cacheValue : CacheHandlerValue) (timeString : option string) : bool :=
  match timeString with
  | Some s =>
      if decide (s = "") then false
      else match Number_parseInt s with
           | Some t => lastModified cacheValue <? t
           | None => false
           end
  | None => false
  end.

(** [for (const timeString of revalidationTimes) { ... } return cacheValue] *)
Fixpoint check_revalidationTimes (key : string) (cacheValue : CacheHandlerValue)
    (revalidationTimes : list (option string)) : M World (option CacheHandlerValue) :=
  match revalidationTimes with
  | [] => ret (Some cacheValue)
  | timeString :: rest =>
      if revalidated_after cacheValue timeString then
        client_unlink [keyPrefix o +:+ key] ;;
        ret None
      else check_revalidationTimes key cacheValue rest
  end.

Definition get (key : string) (ctx : HandlerGetMeta) : M World (option CacheHandlerValue) :=
  assertClientIsReady ;;
  await result := client_get (keyPrefix o +:+ key) in
  match result with
  | None => ret None
  | Some "" => ret None
  | Some payload =>
      match JSON_parse payload with
      | None => throw JsonSyntaxError
      | Some None => ret None
      | Some (Some cacheValue) =>
          let combinedTags := new_Set (tags cacheValue ++ implicitTags ctx) in
          if (length combinedTags =? 0)%nat then ret (Some cacheValue)
          else
            await revalidationTimes := client_hmGet revalidatedTagsKey combinedTags in
            check_revalidationTimes key cacheValue revalidationTimes
      end
  end.

Definition set (key : string) (cacheHandlerValue : CacheHandlerValue) : M World unit :=
  assertClientIsReady ;;
  let lifespan := lifespan cacheHandlerValue in
  await (setOperation, expireOperation) :=
    match keyExpirationStrategy o with
    | EXAT =>
        ret (client_set (keyPrefix o +:+ key) (JSON_stringify cacheHandlerValue)
               (expireAt <$> lifespan),
             None)
    | EXPIREAT =>
        ret (client_set (keyPrefix o +:+ key) (JSON_stringify cacheHandlerValue) None,
             (λ l, client_expireAt (keyPrefix o +:+ key) (expireAt l)) <$> lifespan)
    | Unrecognized s => throw (InvalidKeyExpirationStrategy s)
    end in
  let setTagsOperation :=
    if (0 <? length (tags cacheHandlerValue))%nat
    then Some (client_hSet tagIndexKey key (JSON_stringify_tags (tags cacheHandlerValue)))
    else None in
  let setSharedTtlOperation :=
    (λ l, client_hSet ttlIndexKey key (Number_toString (expireAt l))) <$> lifespan in
  promise_all [setOperation; optional expireOperation;
               optional setTagsOperation; optional setSharedTtlOperation].

Definition revalidateTag (tag : string) : M World unit :=
  assertClientIsReady ;;
  (if isImplicitTag tag
   then await t := Date_now in client_hSet revalidatedTagsKey tag (Number_toString t)
   else ret ()) ;;
  promise_all [revalidateTags tag; revalidateSharedKeys].

Definition delete (key : string) : M World unit :=
  promise_all [client_unlink [keyPrefix o +:+ key];
               client_hDel tagIndexKey [key];
               client_hDel ttlIndexKey [key]].

Definition createHandler : Handler World :=
  mkHandler "apopro-redis-strings" get set revalidateTag (Some delete).
End Handler.
End RedisStrings.

(** ** A reference implementation of the imports

    Enough of the built-ins to run the handler on concrete worlds: decimal
    integers, and JSON as [JSON.stringify] writes it for tag lists and for
    cache values (no white space; in strings only the quote and the
    backslash are escaped).  Anything else is rejected as a syntax error.
    The value of [REVALIDATED_TAGS_KEY] is not in the sources at hand; the
    name below stands in for it. *)

Module Reference.

Definition dquote : ascii := "034"%char.
Definition backslash : ascii := "092"%char.
Definition quoted (body : string) : string := String dquote (body +:+ String dquote "").

Fixpoint escape (s : string) : string :=
  match s with
  | "" => ""
  | String c r =>
      if decide (c = dquote ∨ c = backslash) then String backslash (String c (escape r))
      else String c (escape r)
  end.

(** *** Tag lists *)

Fixpoint write_more (ts : list string) : string :=
  match ts with
  | [] => "]"
  | t :: r => "," +:+ quoted (escape t) +:+ write_more r
  end.

Definition stringify_tags (ts : list string) : string :=
  match ts with
  | [] => "[]"
  | t :: r => "[" +:+ quoted (escape t) +:+ write_more r
  end.

(** Where the reader of an array of strings stands. *)
Inductive ArrayState :=
  | AOpen                                          (* before the bracket *)
  | AFirst                                         (* after the bracket *)
  | AString (done : list string) (cur : string)    (* inside a string *)
  | AEscape (done : list string) (cur : string)    (* after a backslash *)
  | AAfter (done : list string)                    (* after a string *)
  | ANext (done : list string).                    (* after a comma *)

(** Reads an array of strings off the front of [s]: the array and the rest. *)
Fixpoint read_array (st : ArrayState) (s : string) : option (list string * string) :=
  match s with
  | "" => None
  | String c r =>
      match st with
      | AOpen => if decide (c = "["%char) then read_array AFirst r else None
      | AFirst =>
          if decide (c = "]"%char) then Some ([], r)
          else if decide (c = dquote) then read_array (AString [] "") r
          else None
      | AString done cur =>
          if decide (c = dquote) then read_array (AAfter (done ++ [cur])) r
          else if decide (c = backslash) then read_array (AEscape done cur) r
          else read_array (AString done (cur +:+ String c "")) r
      | AEscape done cur =>
          if decide (c = dquote ∨ c = backslash)
          then read_array (AString done (cur +:+ String c "")) r
          else None
      | AAfter done =>
          if decide (c = ","%char) then read_array (ANext done) r
          else if decide (c = "]"%char) then Some (done, r)
          else None
      | ANext done => if decide (c = dquote) then read_array (AString done "") r else None
      end
  end.

Definition parse_tags (s : string) : option (list string) :=
  match read_array AOpen s with
  | Some (ts, "") => Some ts
  | _ => None
  end.

(** *** Numbers *)

Fixpoint read_digits (acc : N) (s : string) : N * string :=
  match s with
  | "" => (acc, "")
  | String c r =>
      match Ascii.is_nat c with
      | Some d => read_digits (10 * acc + N.of_nat d) r
      | None => (acc, s)
      end
  end.

Definition starts_with_digit (s : string) : bool :=
  match s with
  | String c _ => bool_decide (is_Some (Ascii.is_nat c))
  | "" => false
  end.

(** An optional sign and at least one digit: the integer and the rest. *)
Definition read_int (s : string) : option (Z * string) :=
  let '(negative, body) :=
    match s with
    | String "-" r => (true, r)
    | _ => (false, s)
    end in
  if starts_with_digit body then
    let '(n, rest) := read_digits 0 body in
    Some (if negative : bool then - Z.of_N n else Z.of_N n, rest)
  else None.

Fixpoint skip_spaces (s : string) : string :=
  match s with
  | String c r => if Ascii.is_space c then skip_spaces r else s
  | "" => ""
  end.

Definition parseInt (s : string) : option Z :=
  let s := skip_spaces s in
  let s := match s with String "+" r => r | _ => s end in
  fst <$> read_int s.

Definition to_number (s : string) : option Z :=
  if decide (s = "") then Some 0
  else match read_int s with
       | Some (n, "") => Some n
       | _ => None
       end.

(** *** Cache values *)

Definition stringify (v : CacheHandlerValue) : string :=
  "{" +:+ quoted "lastModified" +:+ ":" +:+ pretty (lastModified v) +:+
  "," +:+ quoted "lifespan" +:+ ":" +:+
    match lifespan v with
    | Some l => "{" +:+ quoted "expireAt" +:+ ":" +:+ pretty (expireAt l) +:+ "}"
    | None => "null"
    end +:+
  "," +:+ quoted "tags" +:+ ":" +:+ stringify_tags (tags v) +:+
  "," +:+ quoted "value" +:+ ":" +:+ quoted (escape (value v)) +:+ "}".

Fixpoint expect (prefix s : string) : option string :=
  match prefix with
  | "" => Some s
  | String c p =>
      match s with
      | String d r => if decide (c = d) then expect p r else None
      | "" => None
      end
  end.

(** The body of a string up to its closing quote, and the rest. *)
Fixpoint read_string (cur s : string) : option (string * string) :=
  match s with
  | "" => None
  | String c r =>
      if decide (c = dquote) then Some (cur, r)
      else if decide (c = backslash) then
        match r with
        | String d r' =>
            if decide (d = dquote ∨ d = backslash)
            then read_string (cur +:+ String d "") r'
            else None
        | "" => None
        end
      else read_string (cur +:+ String c "") r
  end.

Definition read_lifespan (s : string) : option (option LifespanParameters * string) :=
  match expect "null" s with
  | Some rest => Some (None, rest)
  | None =>
      s ← expect ("{" +:+ quoted "expireAt" +:+ ":") s;
      '(n, s) ← read_int s;
      s ← expect "}" s;
      Some (Some (mkLifespan n), s)
  end.

Definition read_value (s : string) : option CacheHandlerValue :=
  s ← expect ("{" +:+ quoted "lastModified" +:+ ":") s;
  '(modified, s) ← read_int s;
  s ← expect ("," +:+ quoted "lifespan" +:+ ":") s;
  '(life, s) ← read_lifespan s;
  s ← expect ("," +:+ quoted "tags" +:+ ":") s;
  '(ts, s) ← read_array AOpen s;
  s ← expect ("," +:+ quoted "value" +:+ ":" +:+ String dquote "") s;
  '(val, s) ← read_string "" s;
  if decide (s = "}") then Some (mkValue modified life ts val) else None.

(** [null], [false], [0] and the empty string are what [!cacheValue] rejects. *)
Definition parse (s : string) : option (option CacheHandlerValue) :=
  if decide (s = "null" ∨ s = "false" ∨ s = "0" ∨ s = quoted "") then Some None
  else Some <$> read_value s.

#[export] Instance imports : Imports :=
  {| JSON_stringify := stringify;
     JSON_parse := parse;
     JSON_stringify_tags := stringify_tags;
     JSON_parse_tags := parse_tags;
     Number_toString := pretty;
     Number := to_number;
     Number_parseInt := parseInt;
     isImplicitTag := String.prefix "_N_T_";
     REVALIDATED_TAGS_KEY := "__revalidated_tags__" |}.

End Reference.

(** ** Vocabulary of the statements *)

(** Every handler of [hs], asked in turn for [key], answers [null]; the
    world goes from [w] to [w'] meanwhile. *)
Inductive all_miss {W} (key : string) (ctx : HandlerGetMeta)
    : list (Handler W) → W → W → Prop :=
  | all_miss_nil w : all_miss key ctx [] w w
  | all_miss_cons handler rest w w1 w' :
      get handler key ctx w = (Ok None, w1) →
      all_miss key ctx rest w1 w' →
      all_miss key ctx (handler :: rest) w w'.

(** Three handlers over a world that only records who was asked for what:
    the first never has anything, the other two always answer with what
    they were built around. *)
Definition recording_handler (id : string) (answer : option CacheHandlerValue)
    : Handler (list string) :=
  {| name := id;
     get := λ _ _ w, (Ok answer, w ++ [id +:+ ".get"]);
     set := λ _ _ w, (Ok (), w ++ [id +:+ ".set"]);
     revalidateTag := λ _ w, (Ok (), w ++ [id +:+ ".revalidateTag"]);
     delete := None |}.

Definition page : CacheHandlerValue := mkValue 1700000000000 None ["posts"] "<html>".

Definition three_handlers : list (Handler (list string)) :=
  [recording_handler "A" None; recording_handler "B" (Some page);
   recording_handler "C" (Some page)].

(** The world [w] at another time. *)
Definition at_time (t : Z) (w : World) : World :=
  {| client := client w; now := t; issued := issued w |}.

(** The client of [w] ready or not. *)
Definition with_ready (b : bool) (w : World) : World :=
  {| client := {| isReady := b; strings := strings (client w); hashes := hashes (client w) |};
     now := now w; issued := issued w |}.

(** The commands issued from [w] to [w']. *)
Definition issued_since (w w' : World) : list Command :=
  drop (length (issued w)) (issued w').

Section Vocabulary.
Context `{Imports} (o : RedisStrings.CreateRedisStringsHandlerOptions).
Import RedisStrings.

(** The three hashes of the handler are three different keys of the store. *)
Definition distinct_keys : Prop :=
  NoDup [tagIndexKey o; ttlIndexKey o; revalidatedTagsKey o].

(** Some tag of [tagList] has a Revalidation Marker whose integer value is
    greater than [modified]. *)
Definition revalidated_since (c : RedisClient) (modified : Z) (tagList : list string) : Prop :=
  ∃ tag timeString t,
    tag ∈ tagList ∧
    hash_at c (revalidatedTagsKey o) !! tag = Some timeString ∧
    Number_parseInt timeString = Some t ∧
    modified < t.

(** The fields of [D] are gone from the Tag Index and the TTL Index and
    their payload keys from the store; nothing else has changed. *)
Definition purged (D : list string) (c c' : RedisClient) : Prop :=
  isReady c' = isReady c ∧
  strings c' = foldr base.delete (strings c) (map (λ key, keyPrefix o +:+ key) D) ∧
  (∀ key, hash_at c' key =
     if decide (key = tagIndexKey o ∨ key = ttlIndexKey o)
     then foldr base.delete (hash_at c key) D else hash_at c key) ∧
  (∀ key, key ≠ tagIndexKey o → key ≠ ttlIndexKey o → hashes c' !! key = hashes c !! key) ∧
  (D = [] → c' = c).

(** The fields the tag sweep of [revalidateTag tag] removes from [c]: none
    when a value of the Tag Index does not parse. *)
Definition tagged_fields (tag : string) (c : RedisClient) : list string :=
  match fill JSON_parse_tags ∅ (map_to_list (hash_at c (tagIndexKey o))) with
  | Some tagsMap => fields_tagged tag tagsMap
  | None => []
  end.

(** The fields the TTL sweep removes from [c] at time [t]. *)
Definition expired_fields (t : Z) (c : RedisClient) : list string :=
  match fill (λ val, Some (Number val)) ∅ (map_to_list (hash_at c (ttlIndexKey o))) with
  | Some ttlMap => fields_expired t ttlMap
  | None => []
  end.

(** The client once [revalidateTag tag] has written the marker of an
    implicit tag at time [t]. *)
Definition marked (tag : string) (t : Z) (c : RedisClient) : RedisClient :=
  if isImplicitTag tag
  then put_hash (revalidatedTagsKey o)
         (<[tag := Number_toString t]> (hash_at c (revalidatedTagsKey o))) c
  else c.

(** Every value of the Tag Index is a tag list that [JSON.parse] reads. *)
Definition tag_index_parses (c : RedisClient) : Prop :=
  ∀ field val, hash_at c (tagIndexKey o) !! field = Some val →
    is_Some (JSON_parse_tags val).

(** The calls a host can make. *)
Inductive Call :=
  | CallGet (key : string) (ctx : HandlerGetMeta)
  | CallSet (key : string) (cacheHandlerValue : CacheHandlerValue)
  | CallRevalidateTag (tag : string)
  | CallDelete (key : string).

Definition after (call : Call) (w : World) : World :=
  match call with
  | CallGet key ctx => (RedisStrings.get o key ctx w).2
  | CallSet key v => (RedisStrings.set o key v w).2
  | CallRevalidateTag tag => (RedisStrings.revalidateTag o tag w).2
  | CallDelete key => (RedisStrings.delete o key w).2
  end.

(** The worlds the handler can bring about on a store that starts empty,
    while time passes and the connection comes and goes. *)
Inductive reachable : World → Prop :=
  | reachable_start ready t :
      reachable {| client := {| isReady := ready; strings := ∅; hashes := ∅ |};
                   now := t; issued := [] |}
  | reachable_call call w : reachable w → reachable (after call w)
  | reachable_time t w : reachable w → reachable (at_time t w)
  | reachable_ready b w : reachable w → reachable (with_ready b w).
End Vocabulary.

(** Concrete worlds, under the default options and the reference imports.
    [t_start] is a time in milliseconds; 1700000060 is a minute later, in
    seconds. *)
Definition t_start : Z := 1700000000000.

Definition fresh_world : World :=
  {| client := {| isReady := true; strings := ∅; hashes := ∅ |}; now := t_start; issued := [] |}.

(** A page without tags, made at [t_start], that expires a minute later. *)
Definition tagless_page : CacheHandlerValue :=
  mkValue t_start (Some (mkLifespan 1700000060)) [] "<html>".

(** A tagged page, made at [t_start], that expires a minute later. *)
Definition tagged_page : CacheHandlerValue :=
  mkValue t_start (Some (mkLifespan 1700000060)) ["posts"] "<html>".

(** [tagged_page] under "k", two seconds after [t_start], one second after
    the implicit tag of its path was revalidated. *)
Definition stale_world : World :=
  {| client := {| isReady := true;
                  strings := {[ "k" := (Reference.stringify tagged_page, Some 1700000060) ]};
                  hashes := {[ "__sharedTags__" := {[ "k" := Reference.stringify_tags ["posts"] ]};
                               "__sharedTagsTtl__" := {[ "k" := "1700000060" ]};
                               "__revalidated_tags__" := {[ "_N_T_/blog" := "1700000001000" ]} ]} |};
     now := t_start + 2000; issued := [] |}.

(** [tagged_page] under "k", one second after it expired. *)
Definition expired_world : World :=
  {| client := {| isReady := true;
                  strings := {[ "k" := (Reference.stringify tagged_page, Some 1700000060) ]};
                  hashes := {[ "__sharedTags__" := {[ "k" := Reference.stringify_tags ["posts"] ]};
                               "__sharedTagsTtl__" := {[ "k" := "1700000060" ]} ]} |};
     now := t_start + 61000; issued := [] |}.

(** [tagged_page] under "k" at [t_start], the connection lost. *)
Definition offline_world : World := with_ready false (at_time t_start expired_world).

(** A store whose payload under "k" is cut short. *)
Definition broken_payload_world : World :=
  {| client := {| isReady := true; strings := {[ "k" := ("{", None) ]}; hashes := ∅ |};
     now := t_start; issued := [] |}.

(** A store whose payload under "k" is the JSON text [null]. *)
Definition null_payload_world : World :=
  {| client := {| isReady := true; strings := {[ "k" := ("null", None) ]}; hashes := ∅ |};
     now := t_start; issued := [] |}.

(** A handler that records every call and rejects it. *)
Definition rejecting_handler (id : string) : Handler (list string) :=
  {| name := id;
     get := λ _ _ w, (Throw ClientNotReady, w ++ [id +:+ ".get"]);
     set := λ _ _ w, (Throw ClientNotReady, w ++ [id +:+ ".set"]);
     revalidateTag := λ _ w, (Throw ClientNotReady, w ++ [id +:+ ".revalidateTag"]);
     delete := Some (λ _ w, (Throw ClientNotReady, w ++ [id +:+ ".delete"])) |}.

(** A handler that records every call and has a [delete]. *)
Definition deleting_handler (id : string) : Handler (list string) :=
  {| name := id;
     get := λ _ _ w, (Ok None, w ++ [id +:+ ".get"]);
     set := λ _ _ w, (Ok (), w ++ [id +:+ ".set"]);
     revalidateTag := λ _ w, (Ok (), w ++ [id +:+ ".revalidateTag"]);
     delete := Some (λ _ w, (Ok (), w ++ [id +:+ ".delete"])) |}.

(** A member without [delete], one that rejects, one that deletes. *)
Definition mixed_handlers : list (Handler (list string)) :=
  [recording_handler "A" None; rejecting_handler "F"; deleting_handler "B"].

(** The world after each handler of [hs] in turn has run [step]. *)
Definition after_each {W} (step : Handler W → W → W) (hs : list (Handler W)) (w : W) : W :=
  foldl (λ w handler, step handler w) w hs.

(** What [revalidateTag] and [delete] of a member do to the world when the
    composite fans out to it. *)
Definition revalidateTag_step {W} (tag : string) (handler : Handler W) (w : W) : W :=
  (revalidateTag handler tag w).2.

Definition delete_step {W} (key : string) (handler : Handler W) (w : W) : W :=
  match delete handler with
  | Some del => (del key w).2
  | None => w
  end.

(** The options [o] with another expiration strategy, another page size. *)
Definition with_strategy (strategy : RedisStrings.KeyExpirationStrategy)
    (o : RedisStrings.CreateRedisStringsHandlerOptions)
    : RedisStrings.CreateRedisStringsHandlerOptions :=
  {| RedisStrings.keyPrefix := RedisStrings.keyPrefix o;
     RedisStrings.sharedTagsKey := RedisStrings.sharedTagsKey o;
     RedisStrings.sharedTagsTtlKey := RedisStrings.sharedTagsTtlKey o;
     RedisStrings.timeoutMs := RedisStrings.timeoutMs o;
     RedisStrings.keyExpirationStrategy := strategy;
     RedisStrings.revalidateTagQuerySize := RedisStrings.revalidateTagQuerySize o |}.

Definition with_query_size (size : positive)
    (o : RedisStrings.CreateRedisStringsHandlerOptions)
    : RedisStrings.CreateRedisStringsHandlerOptions :=
  {| RedisStrings.keyPrefix := RedisStrings.keyPrefix o;
     RedisStrings.sharedTagsKey := RedisStrings.sharedTagsKey o;
     RedisStrings.sharedTagsTtlKey := RedisStrings.sharedTagsTtlKey o;
     RedisStrings.timeoutMs := RedisStrings.timeoutMs o;
     RedisStrings.keyExpirationStrategy := RedisStrings.keyExpirationStrategy o;
     RedisStrings.revalidateTagQuerySize := size |}.

Section StoreInvariant.
Context `{Imports} (o : RedisStrings.CreateRedisStringsHandlerOptions).
Import RedisStrings.

(** What the handler has written is all there is in the store: payloads are
    serialised entries under prefixed keys, with the expiry of their
    lifespan; Tag Index values are serialised tag lists that are not empty;
    TTL Index values and markers are numbers, markers under implicit tags. *)
Definition written_by_handler (c : RedisClient) : Prop :=
  (∀ k val expiry, strings c !! k = Some (val, expiry) →
     ∃ key e, k = keyPrefix o +:+ key ∧ val = JSON_stringify e ∧
              expiry = expireAt <$> lifespan e) ∧
  (∀ field val, hash_at c (tagIndexKey o) !! field = Some val →
     ∃ tagList, tagList ≠ [] ∧ val = JSON_stringify_tags tagList) ∧
  (∀ field val, hash_at c (ttlIndexKey o) !! field = Some val →
     ∃ seconds, val = Number_toString seconds) ∧
  (∀ tag val, hash_at c (revalidatedTagsKey o) !! tag = Some val →
     isImplicitTag tag = true ∧ ∃ t, val = Number_toString t).
End StoreInvariant.

(** An entry made at [t_start] without tags and without lifespan. *)
Definition lasting_page : CacheHandlerValue := mkValue t_start None [] "<html>".

(** Two tagged pages in the store, the Tag Index value of a third key
    damaged. *)
Definition damaged_index_world : World :=
  {| client := {| isReady := true;
                  strings := {[ "k" := (Reference.stringify tagged_page, Some 1700000060) ]};
                  hashes := {[ "__sharedTags__" :=
                                 {[ "k" := Reference.stringify_tags ["posts"];
                                    "j" := "[" ]};
                               "__sharedTagsTtl__" := {[ "k" := "1700000060" ]} ]} |};
     now := t_start; issued := [] |}.

(** A store with two tagged pages, one of them expired at [t_start + 61000]. *)
Definition two_pages_world : World :=
  {| client := {| isReady := true;
                  strings := {[ "k" := (Reference.stringify tagged_page, Some 1700000060);
                                "j" := (Reference.stringify
                                          (mkValue t_start (Some (mkLifespan 1700009999))
                                             ["news"] "<html>"),
                                        Some 1700009999) ]};
                  hashes := {[ "__sharedTags__" :=
                                 {[ "k" := Reference.stringify_tags ["posts"];
                                    "j" := Reference.stringify_tags ["news"] ]};
                               "__sharedTagsTtl__" :=
                                 {[ "k" := "1700000060"; "j" := "1700009999" ]} ]} |};
     now := t_start; issued := [] |}.

(** Two redis-strings handlers, each on a store of its own: the world is
    the pair of their worlds, and a member acts on its own component. *)
Definition on_first {A} (m : M World A) : M (World * World) A :=
  λ ww, let '(r, w) := m ww.1 in (r, (w, ww.2)).

Definition on_second {A} (m : M World A) : M (World * World) A :=
  λ ww, let '(r, w) := m ww.2 in (r, (ww.1, w)).

Definition member_on (lift : ∀ A, M World A → M (World * World) A)
    (handler : Handler World) : Handler (World * World) :=
  {| name := name handler;
     get := λ key ctx, lift _ (get handler key ctx);
     set := λ key data, lift _ (set handler key data);
     revalidateTag := λ tag, lift _ (revalidateTag handler tag);
     delete := (λ del key, lift _ (del key)) <$> delete handler |}.

Definition two_stores `{Imports} (o1 o2 : RedisStrings.CreateRedisStringsHandlerOptions)
    : list (Handler (World * World)) :=
  [member_on (@on_first) (RedisStrings.createHandler o1);
   member_on (@on_second) (RedisStrings.createHandler o2)].

(** Both stores at time [t]. *)
Definition both_at_time (t : Z) (ww : World * World) : World * World :=
  (at_time t ww.1, at_time t ww.2).

(** * Properties of the composite handler *)

Module CompositeFacts.
Import Composite.
Section CompositeFacts.
Context {W : Type}.
Implicit Types (hs : list (Handler W)) (w : W).




Lemma at_index_in_range hs (index : Z) :
  0 ≤ index < Z.of_nat (length hs) → at_index hs index = hs !! Z.to_nat index.
Proof. intros. unfold at_index. case_match; [done|]. lia. Qed.

Lemma at_index_out_of_range hs (index : Z) :
  ¬ (0 ≤ index < Z.of_nat (length hs)) → at_index hs index = None.
Proof.
  intros Hout. unfold at_index. case_match eqn:Hle; [|done].
  apply lookup_ge_None_2. lia.
Qed.

(** C9.  The composite [set] is the [set] of one member: the one at the
    index the strategy returns for the entry, or the one at index 0 when
    there is no strategy or the index is none of the members'. *)
Theorem composite_set_one_member
    (o : CreateCompositeHandlerOptions W) composite key data :
  createHandler o = Ok composite →
  ∃ member,
    handlers o !! (match setStrategy o with
                   | Some strategy =>
                       if decide (0 ≤ strategy data < Z.of_nat (length (handlers o)))
                       then Z.to_nat (strategy data) else 0%nat
                   | None => 0%nat
                   end) = Some member ∧
    set composite key data = set member key data.
Proof.
  unfold createHandler. case_match eqn:Hlen; [discriminate|]. intros [= <-]. simpl.
  apply Nat.ltb_ge in Hlen.
  destruct (lookup_lt_is_Some_2 (handlers o) 0) as [first Hfirst]; [lia|].
  unfold composite_set.
  assert (∃ member, handlers o !! 0%nat = Some member ∧
    match at_index (handlers o) 0 with
    | Some handler => set handler key data
    | None => match handlers o !! 0%nat with
              | Some handler => set handler key data
              | None => throw TypeError
              end
    end = set member key data) as Hzero.
  { exists first. split; [done|]. rewrite at_index_in_range by lia.
    change (Z.to_nat 0) with 0%nat. by rewrite Hfirst. }
  destruct (setStrategy o) as [strategy|]; [|done].
  case_decide as Hrange.
  - rewrite at_index_in_range by done.
    destruct (lookup_lt_is_Some_2 (handlers o) (Z.to_nat (strategy data))) as [m Hm]; [lia|].
    exists m. by rewrite Hm.
  - rewrite at_index_out_of_range by done. exists first. by rewrite Hfirst.
Qed.

End CompositeFacts.


Lemma composite_set_one_member_witness :
  ∃ composite member,
    createHandler (mkOptions three_handlers (Some (λ _, 1))) = Ok composite ∧
    three_handlers !! 1%nat = Some member ∧
    set composite "k" page = set member "k" page ∧
    set composite "k" page [] = (Ok (), ["B.set"]).
Proof.
  eexists.
  destruct (composite_set_one_member
              (mkOptions three_handlers (Some (λ _, 1))) _ "k" page eq_refl)
    as (member & Hat & Hset).
  exists member. split_and!; [reflexivity|exact Hat|exact Hset|reflexivity].
Defined.

End CompositeFacts.

(** * More on the composite handler: rejections and the two fan-outs *)

Module CompositeFanOut.
Import Composite.
Section CompositeFanOut.
Context {W : Type}.
Implicit Types (hs : list (Handler W)) (w : W).

Lemma get_loop_rejection hs key ctx w pre member post w1 w' e :
  hs = pre ++ member :: post →
  all_miss key ctx pre w w1 →
  get member key ctx w1 = (Throw e, w') →
  get_loop hs key ctx w = (Throw e, w').
Proof.
  intros -> Hmiss. revert Hmiss. revert w.
  induction pre as [|handler pre IH]; intros w Hmiss Hthrow; simpl; unfold bind.
  - inversion Hmiss; subst. by rewrite Hthrow.
  - inversion Hmiss as [|? ? ? w2 ? Hget Hrest]; subst. rewrite Hget. by apply IH.
Qed.

(** X1.  When the members asked before it all answer [null] and a member's
    [get] rejects, the composite [get] rejects with the same error, in the
    world that member leaves: the members after it are not asked. *)
Theorem composite_get_passes_rejection_on
    (o : CreateCompositeHandlerOptions W) composite key ctx w pre member post w1 w' e :
  createHandler o = Ok composite →
  handlers o = pre ++ member :: post →
  all_miss key ctx pre w w1 →
  get member key ctx w1 = (Throw e, w') →
  get composite key ctx w = (Throw e, w').
Proof.
  unfold createHandler. case_match; [discriminate|]. intros [= <-]. simpl.
  apply get_loop_rejection.
Qed.

Lemma fan_out_world {A} (f : A → M W unit) (l : list A) w :
  (promise_all (map f l) w).2 = foldl (λ w x, (f x w).2) w l.
Proof.
  revert w. induction l as [|a l IH]; intros w; simpl; [done|].
  unfold promise_all2. destruct (f a w) as [ra w1] eqn:Ha. simpl.
  rewrite <- IH. by destruct (promise_all (map f l) w1).
Qed.

Lemma fan_out_ok {A} (f : A → M W unit) (l : list A) w :
  (promise_all (map f l) w).1 = Ok () ↔
  ∀ pre x post, l = pre ++ x :: post →
    (f x (foldl (λ w x, (f x w).2) w pre)).1 = Ok ().
Proof.
  revert w. induction l as [|a l IH]; intros w; simpl.
  - split; [|done]. intros _ pre x post Heq. by destruct pre.
  - unfold promise_all2. destruct (f a w) as [ra w1] eqn:Ha.
    destruct (promise_all (map f l) w1) as [rb w2] eqn:Hrest. simpl.
    assert (rb = Ok () ↔ ∀ pre x post, l = pre ++ x :: post →
              (f x (foldl (λ w x, (f x w).2) w1 pre)).1 = Ok ()) as Hrb.
    { rewrite <- IH. by rewrite Hrest. }
    split.
    + intros Hok. destruct ra as [[]|e]; [|done].
      intros pre x post Heq. destruct pre as [|p pre]; simplify_eq/=.
      * by rewrite Ha.
      * rewrite Ha. simpl. by eapply Hrb.
    + intros Hall. pose proof (Hall [] a l eq_refl) as Hfirst. simpl in Hfirst.
      rewrite Ha in Hfirst. simpl in Hfirst. subst ra.
      apply Hrb. intros pre x post ->.
      specialize (Hall (a :: pre) x post eq_refl). simpl in Hall.
      by rewrite Ha in Hall.
Qed.

(** X2.  The composite [revalidateTag] runs the [revalidateTag] of every
    member, in the order of [handlers], whether or not an earlier one
    rejected; it resolves exactly when every member resolves in its turn. *)
Theorem composite_revalidateTag_reaches_every_member
    (o : CreateCompositeHandlerOptions W) composite tag w :
  createHandler o = Ok composite →
  (revalidateTag composite tag w).2 = after_each (revalidateTag_step tag) (handlers o) w ∧
  ((revalidateTag composite tag w).1 = Ok () ↔
   ∀ pre member post, handlers o = pre ++ member :: post →
     (revalidateTag member tag (after_each (revalidateTag_step tag) pre w)).1 = Ok ()).
Proof.
  unfold createHandler. case_match; [discriminate|]. intros [= <-]. simpl.
  unfold composite_revalidateTag. split.
  - apply (fan_out_world (λ handler, revalidateTag handler tag)).
  - apply (fan_out_ok (λ handler, revalidateTag handler tag)).
Qed.

(** X3.  The composite [delete] runs the [delete] of every member that has
    one, in the order of [handlers], whether or not an earlier one rejected;
    a member without [delete] is passed over and counts as resolved. *)
Theorem composite_delete_reaches_every_member
    (o : CreateCompositeHandlerOptions W) composite del key w :
  createHandler o = Ok composite →
  delete composite = Some del →
  (del key w).2 = after_each (delete_step key) (handlers o) w ∧
  ((del key w).1 = Ok () ↔
   ∀ pre member post member_delete,
     handlers o = pre ++ member :: post →
     delete member = Some member_delete →
     (member_delete key (after_each (delete_step key) pre w)).1 = Ok ()).
Proof.
  unfold createHandler. case_match; [discriminate|]. intros [= <-]. simpl.
  intros [= <-]. unfold composite_delete.
  set (f := λ handler : Handler W,
         match delete handler with Some d => d key | None => ret () end).
  assert (∀ l w0, foldl (λ w x, (f x w).2) w0 l = after_each (delete_step key) l w0) as Hfold.
  { intros l. unfold after_each. induction l as [|a l IH]; intros w0; simpl; [done|].
    rewrite IH. f_equal. unfold f, delete_step. by destruct (delete a). }
  split.
  - rewrite (fan_out_world f). apply Hfold.
  - rewrite (fan_out_ok f). split.
    + intros Hall pre member post d Heq Hd.
      specialize (Hall pre member post Heq). rewrite Hfold in Hall.
      unfold f in Hall. by rewrite Hd in Hall.
    + intros Hall pre member post Heq. rewrite Hfold. unfold f.
      destruct (delete member) as [d|] eqn:Hd; [|done].
      by apply (Hall pre member post d).
Qed.

End CompositeFanOut.

Lemma composite_get_passes_rejection_on_witness :
  ∃ composite,
    createHandler (mkOptions mixed_handlers None) = Ok composite ∧
    get composite "k" (mkMeta []) [] = (Throw ClientNotReady, ["A.get"; "F.get"]).
Proof.
  eexists. split; [reflexivity|].
  apply (composite_get_passes_rejection_on (mkOptions mixed_handlers None) _ "k" (mkMeta [])
           [] [recording_handler "A" None] (rejecting_handler "F") [deleting_handler "B"]
           ["A.get"] ["A.get"; "F.get"] ClientNotReady);
    [reflexivity|reflexivity| |reflexivity].
  eapply all_miss_cons; [reflexivity|constructor].
Defined.

Lemma composite_revalidateTag_reaches_every_member_witness :
  ∃ composite,
    createHandler (mkOptions mixed_handlers None) = Ok composite ∧
    (revalidateTag composite "posts" []).2
    = ["A.revalidateTag"; "F.revalidateTag"; "B.revalidateTag"].
Proof.
  eexists. split; [reflexivity|].
  rewrite (proj1 (composite_revalidateTag_reaches_every_member
                    (mkOptions mixed_handlers None) _ "posts" [] eq_refl)).
  reflexivity.
Defined.

Lemma composite_delete_reaches_every_member_witness :
  ∃ composite del,
    createHandler (mkOptions mixed_handlers None) = Ok composite ∧
    delete composite = Some del ∧
    (del "k" []).2 = ["F.delete"; "B.delete"].
Proof.
  eexists. eexists. split; [reflexivity|]. split; [reflexivity|].
  rewrite (proj1 (composite_delete_reaches_every_member
                    (mkOptions mixed_handlers None) _ _ "k" [] eq_refl eq_refl)).
  reflexivity.
Defined.

End CompositeFanOut.

(** * The reference tag-list codec round-trips *)

Module ReferenceFacts.
Import Reference.

Lemma string_app_nil_r (s : string) : s +:+ "" = s.
Proof.
  induction s as [|c s IH]; [done|].
  change (String c (s +:+ "") = String c s). by rewrite IH.
Qed.

Lemma string_app_assoc (s1 s2 s3 : string) : (s1 +:+ s2) +:+ s3 = s1 +:+ (s2 +:+ s3).
Proof.
  induction s1 as [|c s1 IH]; [done|].
  change (String c ((s1 +:+ s2) +:+ s3) = String c (s1 +:+ (s2 +:+ s3))). by rewrite IH.
Qed.

Lemma read_array_string s done cur rest :
  read_array (AString done cur) (escape s +:+ String dquote rest)
  = read_array (AAfter (done ++ [cur +:+ s])) rest.
Proof.
  revert cur. induction s as [|c s IH]; intros cur; simpl.
  - by rewrite string_app_nil_r.
  - destruct (decide (c = dquote ∨ c = backslash)) as [Hspecial|Hplain]; simpl.
    + rewrite decide_True by done. rewrite IH.
      by rewrite string_app_assoc.
    + rewrite decide_False by (intros ->; apply Hplain; by left).
      rewrite decide_False by (intros ->; apply Hplain; by right).
      rewrite IH. by rewrite string_app_assoc.
Qed.

Lemma read_array_more ts done rest :
  read_array (AAfter done) (write_more ts +:+ rest) = Some (done ++ ts, rest).
Proof.
  revert done. induction ts as [|t ts IH]; intros done; simpl.
  - by rewrite app_nil_r.
  - rewrite !string_app_assoc.
    change (String dquote "" +:+ (write_more ts +:+ rest))
      with (String dquote (write_more ts +:+ rest)).
    rewrite read_array_string. change ("" +:+ t) with t.
    rewrite IH. by rewrite <- app_assoc.
Qed.

Lemma parse_stringify_tags ts : parse_tags (stringify_tags ts) = Some ts.
Proof.
  unfold parse_tags. destruct ts as [|t ts]; [done|].
  unfold stringify_tags. simpl.
  rewrite <- (string_app_nil_r (write_more ts)).
  rewrite !string_app_assoc.
  change (String dquote "" +:+ (write_more ts +:+ ""))
    with (String dquote (write_more ts +:+ "")).
  rewrite read_array_string. change ("" +:+ t) with t.
  by rewrite read_array_more.
Qed.

End ReferenceFacts.

(** * Properties of the redis-strings handler *)

Module RedisStringsFacts.
Import RedisStrings.

(** ** The client's commands *)

Lemma bind_command {A B} cmd f (k : A → M World B) w :
  bind (command cmd f) k w =
  k (f (now w) (client w)).1
    {| client := (f (now w) (client w)).2; now := now w; issued := issued w ++ [cmd] |}.
Proof. unfold bind, command. by destruct (f (now w) (client w)). Qed.

(** Runs the commands at the head of the computation in the goal. *)
Ltac issue :=
  unfold client_get, client_set, client_expireAt, client_unlink, client_hSet,
    client_hDel, client_hmGet, client_hScan;
  rewrite ?bind_command; cbn beta iota zeta delta [fst snd].

(** Finds an element in a list written out. *)
Ltac find_elem :=
  first [ by apply list_elem_of_here | apply list_elem_of_further; find_elem ].

Lemma hash_at_put_hash key h c key' :
  hash_at (put_hash key h c) key' = if decide (key = key') then h else hash_at c key'.
Proof.
  unfold hash_at, put_hash; simpl.
  destruct (decide (h = ∅)) as [->|Hne]; case_decide as Hkey; subst.
  - by rewrite lookup_delete_eq.
  - by rewrite lookup_delete_ne.
  - by rewrite lookup_insert_eq.
  - by rewrite lookup_insert_ne.
Qed.

Lemma hashes_put_hash_ne key h c key' :
  key ≠ key' → hashes (put_hash key h c) !! key' = hashes c !! key'.
Proof.
  intros Hne. unfold put_hash; simpl. case_decide.
  - by rewrite lookup_delete_ne.
  - by rewrite lookup_insert_ne.
Qed.

Lemma lookup_foldr_delete {V} (m : gmap string V) (l : list string) (k : string) :
  foldr base.delete m l !! k = if decide (k ∈ l) then None else m !! k.
Proof.
  induction l as [|x l IH]; cbn [foldr].
  - rewrite decide_False; [done|]. apply not_elem_of_nil.
  - destruct (decide (x = k)) as [->|Hne].
    + rewrite lookup_delete_eq. rewrite decide_True; [done|]. left.
    + rewrite lookup_delete_ne by done. rewrite IH.
      destruct (decide (k ∈ l)) as [Hin|Hin].
      * rewrite decide_True; [done|]. by right.
      * rewrite decide_False; [done|]. intros [->|?]%elem_of_cons; done.
Qed.

Lemma with_prefix_elem_of (prefix : string) (D : list string) (k : string) :
  prefix +:+ k ∈ map (λ key, prefix +:+ key) D ↔ k ∈ D.
Proof.
  split.
  - intros Hin. change (prefix +:+ k ∈ (λ key, prefix +:+ key) <$> D) in Hin.
    apply list_elem_of_fmap in Hin as (k' & Heq & Hk').
    by apply (inj (String.app prefix)) in Heq as ->.
  - intros Hin. change (prefix +:+ k ∈ (λ key, prefix +:+ key) <$> D).
    by apply (list_elem_of_fmap_2 (λ key, prefix +:+ key)).
Qed.

Lemma new_Set_elem_of (l : list string) (x : string) : x ∈ new_Set l ↔ x ∈ l.
Proof.
  unfold new_Set.
  assert (∀ seen, x ∈ Set_add_all seen l ↔ x ∈ seen ∨ x ∈ l) as Hgen.
  { induction l as [|y l IH]; intros seen; simpl.
    - set_solver.
    - case_decide; rewrite IH; set_solver. }
  rewrite Hgen. set_solver.
Qed.

Lemma new_Set_nil (l : list string) : new_Set l = [] ↔ l = [].
Proof.
  split; [|by intros ->].
  intros Hnil. destruct l as [|x l]; [done|].
  assert (x ∈ new_Set (x :: l)) as Hin by (apply new_Set_elem_of; left).
  rewrite Hnil in Hin. by apply elem_of_nil in Hin.
Qed.

(** ** The scan loop *)

Lemma fill_app {V} (read : string → option V) acc l1 l2 :
  fill read acc (l1 ++ l2) = fill read acc l1 ≫= λ acc', fill read acc' l2.
Proof.
  revert acc. induction l1 as [|[field val] l1 IH]; intros acc; simpl; [done|].
  destruct (read val); [apply IH|done].
Qed.

Lemma fill_lookup {V} (read : string → option V) acc l m :
  NoDup l.*1 →
  fill read acc l = Some m →
  ∀ k, m !! k = match (list_to_map l : gmap string string) !! k with
                | Some val => read val
                | None => acc !! k
                end.
Proof.
  revert acc. induction l as [|[field val] l IH]; intros acc Hnodup Hfill k; simpl in *.
  - rewrite lookup_empty. congruence.
  - apply NoDup_cons in Hnodup as [Hfresh Hnodup].
    destruct (read val) as [v|] eqn:Hread; [|done].
    rewrite (IH _ Hnodup Hfill k).
    destruct (decide (field = k)) as [->|Hne].
    + rewrite lookup_insert_eq.
      rewrite (not_elem_of_list_to_map_1 l k Hfresh). by rewrite lookup_insert_eq.
    + rewrite !lookup_insert_ne by done. done.
Qed.

Lemma fill_None {V} (read : string → option V) acc l :
  fill read acc l = None ↔ ∃ field val, (field, val) ∈ l ∧ read val = None.
Proof.
  revert acc. induction l as [|[field val] l IH]; intros acc; simpl.
  - split; [done|]. intros (? & ? & Hin & _). by apply elem_of_nil in Hin.
  - destruct (read val) as [v|] eqn:Hread.
    + rewrite IH. split.
      * intros (f & x & Hin & Hx). exists f, x. split; [by right|done].
      * intros (f & x & Hin & Hx). apply elem_of_cons in Hin as [[= -> ->]|Hin];
          [congruence|]. by exists f, x.
    + split; [|done]. intros _. exists field, val. split; [left|done].
Qed.

Lemma fill_map_to_list {V} (read : string → option V) (h : gmap string string) m :
  fill read ∅ (map_to_list h) = Some m → m = omap read h.
Proof.
  intros Hfill. apply map_eq. intros k.
  rewrite (fill_lookup read ∅ _ m (NoDup_fst_map_to_list h) Hfill k).
  rewrite list_to_map_to_list, lookup_omap, lookup_empty.
  by destruct (h !! k).
Qed.

Lemma fill_map_to_list_None {V} (read : string → option V) (h : gmap string string) :
  fill read ∅ (map_to_list h) = None ↔ ∃ field val, h !! field = Some val ∧ read val = None.
Proof.
  rewrite fill_None. by setoid_rewrite elem_of_map_to_list.
Qed.

(** With fuel beyond the fields still to come, the loop reads them all and
    the store is as before. *)
Lemma scan_loop_run {V} (read : string → option V) key COUNT fuel cur acc w :
  (length (map_to_list (hash_at (client w) key)) - cur < fuel)%nat →
  ∃ cmds,
    scan_loop read fuel key COUNT cur acc w =
    (match fill read acc (drop cur (map_to_list (hash_at (client w) key))) with
     | Some m => Ok m
     | None => Throw JsonSyntaxError
     end,
     {| client := client w; now := now w; issued := issued w ++ cmds |}).
Proof.
  revert cur acc w. induction fuel as [|fuel IH]; intros cur acc w Hfuel; [lia|].
  cbn [scan_loop]. issue. cbn [tuples cursor].
  set (fields := map_to_list (hash_at (client w) key)) in *.
  set (n := Pos.to_nat COUNT).
  assert (0 < n)%nat as Hn by (unfold n; lia).
  assert (fill read acc (drop cur fields) =
          fill read acc (take n (drop cur fields)) ≫=
            λ acc', fill read acc' (drop (cur + n) fields)) as Hsplit.
  { rewrite <- fill_app, <- drop_drop. by rewrite take_drop. }
  rewrite Hsplit.
  destruct (fill read acc (take n (drop cur fields))) as [acc'|]; simpl.
  - destruct (cur + n <? length fields)%nat eqn:Hmore.
    + apply Nat.ltb_lt in Hmore.
      replace (cur + n =? 0)%nat with false by (symmetry; apply Nat.eqb_neq; lia).
      edestruct (IH (cur + n)%nat acc'
        {| client := client w; now := now w;
           issued := issued w ++ [RHScan key cur COUNT] |}) as [cmds Hrun].
      { simpl. fold fields. lia. }
      simpl in Hrun. fold fields in Hrun.
      exists (RHScan key cur COUNT :: cmds). cbn iota. rewrite Hrun.
      by rewrite <- app_assoc.
    + apply Nat.ltb_ge in Hmore. simpl.
      exists [RHScan key cur COUNT]. rewrite drop_ge by lia. done.
  - by exists [RHScan key cur COUNT].
Qed.

Lemma scan_run {V} (read : string → option V) key COUNT w :
  ∃ cmds,
    scan read key COUNT w =
    (match fill read ∅ (map_to_list (hash_at (client w) key)) with
     | Some m => Ok m
     | None => Throw JsonSyntaxError
     end,
     {| client := client w; now := now w; issued := issued w ++ cmds |}).
Proof.
  unfold scan.
  destruct (scan_loop_run read key COUNT (S (size (hash_at (client w) key))) 0 ∅ w)
    as [cmds Hrun]; [rewrite length_map_to_list; lia|].
  exists cmds. by rewrite Hrun.
Qed.

Section Facts.
Context `{Imports} (o : CreateRedisStringsHandlerOptions).
Implicit Types (w : World) (c : RedisClient).

(** ** [get] *)

Lemma check_revalidationTimes_run key cacheValue times w :
  check_revalidationTimes o key cacheValue times w =
  if existsb (revalidated_after cacheValue) times
  then (Ok None,
        {| client := put_strings (base.delete (keyPrefix o +:+ key) (strings (client w)))
                       (client w);
           now := now w;
           issued := issued w ++ [RUnlink [keyPrefix o +:+ key]] |})
  else (Ok (Some cacheValue), w).
Proof.
  induction times as [|timeString rest IH]; simpl; [done|].
  destruct (revalidated_after cacheValue timeString); simpl; [|exact IH].
  by issue.
Qed.

Lemma get_run key ctx w :
  isReady (client w) = true →
  get o key ctx w =
  let w1 := {| client := client w; now := now w;
               issued := issued w ++ [RGet (keyPrefix o +:+ key)] |} in
  match string_at (now w) (client w) (keyPrefix o +:+ key) with
  | None => (Ok None, w1)
  | Some payload =>
      if decide (payload = "") then (Ok None, w1)
      else match JSON_parse payload with
           | None => (Throw JsonSyntaxError, w1)
           | Some None => (Ok None, w1)
           | Some (Some cacheValue) =>
               let combinedTags := new_Set (tags cacheValue ++ implicitTags ctx) in
               if decide (combinedTags = []) then (Ok (Some cacheValue), w1)
               else check_revalidationTimes o key cacheValue
                      (map (λ f, hash_at (client w) (revalidatedTagsKey o) !! f) combinedTags)
                      {| client := client w; now := now w;
                         issued := (issued w ++ [RGet (keyPrefix o +:+ key)])
                                   ++ [RHmGet (revalidatedTagsKey o) combinedTags] |}
           end
  end.
Proof.
  intros Hready. unfold get, assertClientIsReady.
  unfold bind at 1. rewrite Hready. issue.
  destruct (string_at (now w) (client w) (keyPrefix o +:+ key)) as [payload|]; [|done].
  destruct payload as [|a payload]; [done|].
  rewrite decide_False by done.
  destruct (JSON_parse (String a payload)) as [[cacheValue|]|]; [|done|done].
  simpl. destruct (new_Set (tags cacheValue ++ implicitTags ctx)) as [|x l] eqn:Hset; [done|].
  rewrite decide_False by done. simpl. by issue.
Qed.

Lemma get_not_ready key ctx w :
  isReady (client w) = false → get o key ctx w = (Throw ClientNotReady, w).
Proof. intros Hready. unfold get, assertClientIsReady, bind. by rewrite Hready. Qed.

Lemma existsb_revalidated_after_1 c cacheValue tagList :
  existsb (revalidated_after cacheValue)
    (map (λ f, hash_at c (revalidatedTagsKey o) !! f) (new_Set tagList)) = true →
  revalidated_since o c (lastModified cacheValue) tagList.
Proof.
  rewrite existsb_exists. intros (timeString & Hin & Hafter).
  apply in_map_iff in Hin as (tag & <- & Hin).
  apply list_elem_of_In in Hin. rewrite new_Set_elem_of in Hin.
  unfold revalidated_after in Hafter.
  destruct (hash_at c (revalidatedTagsKey o) !! tag) as [s|] eqn:Hs; [|done].
  case_decide; [done|].
  destruct (Number_parseInt s) as [t|] eqn:Ht; [|done].
  exists tag, s, t. split_and!; try done. by apply Z.ltb_lt.
Qed.

Lemma existsb_revalidated_after_2 c cacheValue tagList :
  Number_parseInt "" = None →
  revalidated_since o c (lastModified cacheValue) tagList →
  existsb (revalidated_after cacheValue)
    (map (λ f, hash_at c (revalidatedTagsKey o) !! f) (new_Set tagList)) = true.
Proof.
  intros Hempty (tag & s & t & Hin & Hs & Ht & Hlt).
  rewrite existsb_exists. exists (Some s). split.
  - apply in_map_iff. exists tag. split; [done|].
    apply list_elem_of_In. by rewrite new_Set_elem_of.
  - unfold revalidated_after. rewrite decide_False by congruence.
    rewrite Ht. by apply Z.ltb_lt.
Qed.

(** C2, as the code has it.  A payload that [JSON.parse] rejects makes
    [get] throw the parser's error, after the one read of the payload; a
    payload that parses to a value [!cacheValue] finds empty is a miss. *)
Theorem get_malformed_payload_throws key ctx w payload :
  isReady (client w) = true →
  string_at (now w) (client w) (keyPrefix o +:+ key) = Some payload →
  payload ≠ "" →
  let w1 := {| client := client w; now := now w;
               issued := issued w ++ [RGet (keyPrefix o +:+ key)] |} in
  (JSON_parse payload = None → get o key ctx w = (Throw JsonSyntaxError, w1)) ∧
  (JSON_parse payload = Some None → get o key ctx w = (Ok None, w1)).
Proof.
  intros Hready Hpayload Hne w1.
  rewrite (get_run _ _ _ Hready). rewrite Hpayload. simpl.
  rewrite decide_False by done.
  split; by intros ->.
Qed.

(** C4.  With at least one tag of its own or of the context, the entry
    read under [key] is dropped exactly when one of those tags has a marker
    later than its [lastModified]: [get] then unlinks the payload key and
    returns [null]; without such a marker it returns the entry and leaves
    the store alone. *)
Theorem get_checks_revalidation_markers key ctx w payload cacheValue :
  Number_parseInt "" = None →
  isReady (client w) = true →
  string_at (now w) (client w) (keyPrefix o +:+ key) = Some payload →
  payload ≠ "" →
  JSON_parse payload = Some (Some cacheValue) →
  tags cacheValue ++ implicitTags ctx ≠ [] →
  (revalidated_since o (client w) (lastModified cacheValue)
     (tags cacheValue ++ implicitTags ctx) →
   (get o key ctx w).1 = Ok None ∧
   strings (client (get o key ctx w).2) !! (keyPrefix o +:+ key) = None ∧
   RUnlink [keyPrefix o +:+ key] ∈ issued_since w (get o key ctx w).2) ∧
  (¬ revalidated_since o (client w) (lastModified cacheValue)
       (tags cacheValue ++ implicitTags ctx) →
   (get o key ctx w).1 = Ok (Some cacheValue) ∧
   client (get o key ctx w).2 = client w).
Proof.
  intros Hempty Hready Hpayload Hne Hparse Htags.
  rewrite (get_run _ _ _ Hready). rewrite Hpayload. simpl.
  rewrite decide_False by done. rewrite Hparse.
  rewrite decide_False by (by rewrite new_Set_nil).
  rewrite check_revalidationTimes_run. simpl.
  split.
  - intros Hstale. rewrite existsb_revalidated_after_2 by done. simpl.
    split_and!; [done|apply lookup_delete_eq|].
    unfold issued_since. simpl. rewrite <- !app_assoc, drop_app_length.
    do 2 right. left.
  - intros Hfresh.
    destruct (existsb _ _) eqn:Hex; [|done].
    by apply existsb_revalidated_after_1 in Hex.
Qed.

Lemma get_frame key ctx w :
  hashes (client (get o key ctx w).2) = hashes (client w) ∧
  ∀ other, other ≠ keyPrefix o +:+ key →
    strings (client (get o key ctx w).2) !! other = strings (client w) !! other.
Proof.
  destruct (isReady (client w)) eqn:Hready; [|by rewrite get_not_ready].
  rewrite (get_run _ _ _ Hready). simpl.
  destruct (string_at _ _ _) as [payload|]; [|done].
  case_decide; [done|].
  destruct (JSON_parse payload) as [[cacheValue|]|]; [|done|done].
  case_decide; [done|].
  rewrite check_revalidationTimes_run. destruct (existsb _ _); [|done]. simpl.
  split; [done|]. intros other Hother. by rewrite lookup_delete_ne.
Qed.

(** C10.  Whatever [get] does, and so also when it drops a stale entry, it
    touches no hash (Tag Index, TTL Index and Revalidation Markers are as
    before) and no string key but the payload key it was asked for. *)
Theorem get_leaves_indexes_alone key ctx w :
  hashes (client (get o key ctx w).2) = hashes (client w) ∧
  ∀ other, other ≠ keyPrefix o +:+ key →
    strings (client (get o key ctx w).2) !! other = strings (client w) !! other.
Proof. apply get_frame. Qed.

(** ** The two sweeps of [revalidateTag] *)

Lemma hash_at_put_strings s c key : hash_at (put_strings s c) key = hash_at c key.
Proof. reflexivity. Qed.

Lemma hashes_put_strings s c : hashes (put_strings s c) = hashes c.
Proof. reflexivity. Qed.

Lemma purged_nil c : purged o [] c c.
Proof.
  unfold purged. split_and!; try done.
  intros key. by case_decide.
Qed.

(** Settles [purged] for a client written as the commands built it. *)
Ltac settle_purged Hne :=
  unfold purged; split_and!;
  [ reflexivity
  | reflexivity
  | intros ?key; rewrite ?hash_at_put_hash, ?hash_at_put_strings, ?hash_at_put_hash;
    repeat case_decide; subst; try done; naive_solver
  | intros ?key ? ?; by rewrite ?hashes_put_strings, ?hashes_put_hash_ne by done
  | done ].

Lemma revalidateTags_run tag w :
  tagIndexKey o ≠ ttlIndexKey o →
  now (revalidateTags o tag w).2 = now w ∧
  purged o (tagged_fields o tag (client w)) (client w) (client (revalidateTags o tag w).2).
Proof.
  intros Hne. unfold revalidateTags, tagged_fields. unfold bind.
  destruct (scan_run JSON_parse_tags (tagIndexKey o) (revalidateTagQuerySize o) w)
    as [cmds ->].
  destruct (fill JSON_parse_tags ∅ _) as [tagsMap|]; [|split; [done|apply purged_nil]].
  destruct (fields_tagged tag tagsMap) as [|field D] eqn:HD; simpl;
    [split; [done|apply purged_nil]|].
  split; [done|]. settle_purged Hne.
Qed.

Lemma revalidateSharedKeys_run w :
  tagIndexKey o ≠ ttlIndexKey o →
  (revalidateSharedKeys o w).1 = Ok () ∧
  now (revalidateSharedKeys o w).2 = now w ∧
  purged o (expired_fields o (now w) (client w)) (client w)
    (client (revalidateSharedKeys o w).2).
Proof.
  intros Hne. unfold revalidateSharedKeys, expired_fields. unfold bind.
  destruct (scan_run (λ val, Some (Number val)) (ttlIndexKey o) (revalidateTagQuerySize o) w)
    as [cmds ->].
  destruct (fill _ ∅ _) as [ttlMap|] eqn:Hfill.
  2:{ apply fill_None in Hfill as (? & ? & _ & ?). done. }
  unfold Date_now. simpl.
  destruct (fields_expired (now w) ttlMap) as [|field D] eqn:HD; simpl.
  - split; [done|]. split; [done|]. apply purged_nil.
  - split; [done|]. split; [done|]. settle_purged Hne.
Qed.

Lemma purged_hash_lookup D c c' key field :
  purged o D c c' →
  key = tagIndexKey o ∨ key = ttlIndexKey o →
  hash_at c' key !! field = if decide (field ∈ D) then None else hash_at c key !! field.
Proof.
  intros (_ & _ & Hhash & _) Hkey. rewrite Hhash, decide_True by done.
  apply lookup_foldr_delete.
Qed.

Lemma purged_payload_lookup D c c' field :
  purged o D c c' →
  strings c' !! (keyPrefix o +:+ field)
  = if decide (field ∈ D) then None else strings c !! (keyPrefix o +:+ field).
Proof.
  intros (_ & Hstrings & _). rewrite Hstrings, lookup_foldr_delete.
  destruct (decide (field ∈ D)) as [Hin|Hin].
  - rewrite decide_True; [done|]. by apply with_prefix_elem_of.
  - rewrite decide_False; [done|]. by rewrite with_prefix_elem_of.
Qed.

Lemma purged_other_hash D c c' key :
  purged o D c c' →
  key ≠ tagIndexKey o → key ≠ ttlIndexKey o →
  hashes c' !! key = hashes c !! key ∧ hash_at c' key = hash_at c key.
Proof.
  intros (_ & _ & Hhash & Hother & _) Htag Httl. split; [by apply Hother|].
  rewrite Hhash. rewrite decide_False; [done|]. by intros [?|?].
Qed.

Lemma elem_of_fields_tagged tag (tagsMap : gmap string (list string)) field :
  field ∈ fields_tagged tag tagsMap ↔
  ∃ tagList, tagsMap !! field = Some tagList ∧ tag ∈ tagList.
Proof.
  unfold fields_tagged. rewrite list_elem_of_fmap. split.
  - intros ([f tagList] & -> & Hin). apply list_elem_of_filter in Hin as [Htag Hin].
    apply elem_of_map_to_list in Hin. by exists tagList.
  - intros (tagList & Hlookup & Htag). exists (field, tagList). split; [done|].
    apply list_elem_of_filter. split; [done|]. by apply elem_of_map_to_list.
Qed.

Lemma elem_of_fields_expired t (ttlMap : gmap string (option Z)) field :
  field ∈ fields_expired t ttlMap ↔
  ∃ ttl, ttlMap !! field = Some ttl ∧ expired t ttl = true.
Proof.
  unfold fields_expired. rewrite list_elem_of_fmap. split.
  - intros ([f ttl] & -> & Hin). apply list_elem_of_filter in Hin as [Hexp Hin].
    apply elem_of_map_to_list in Hin. by exists ttl.
  - intros (ttl & Hlookup & Hexp). exists (field, ttl). split; [done|].
    apply list_elem_of_filter. split; [done|]. by apply elem_of_map_to_list.
Qed.

Lemma elem_of_tagged_fields_1 tag c field :
  field ∈ tagged_fields o tag c →
  ∃ val tagList,
    hash_at c (tagIndexKey o) !! field = Some val ∧
    JSON_parse_tags val = Some tagList ∧ tag ∈ tagList.
Proof.
  unfold tagged_fields.
  destruct (fill JSON_parse_tags ∅ _) as [tagsMap|] eqn:Hfill;
    [|by intros ?%elem_of_nil].
  apply fill_map_to_list in Hfill as ->.
  rewrite elem_of_fields_tagged. intros (tagList & Hlookup & Htag).
  apply lookup_omap_Some in Hlookup as (val & Hparse & Hval). by exists val, tagList.
Qed.

Lemma elem_of_tagged_fields_2 tag c field val tagList :
  tag_index_parses o c →
  hash_at c (tagIndexKey o) !! field = Some val →
  JSON_parse_tags val = Some tagList →
  tag ∈ tagList →
  field ∈ tagged_fields o tag c.
Proof.
  intros Hparses Hval Hparse Htag. unfold tagged_fields.
  destruct (fill JSON_parse_tags ∅ _) as [tagsMap|] eqn:Hfill.
  - apply fill_map_to_list in Hfill as ->.
    apply elem_of_fields_tagged. exists tagList. split; [|done].
    apply lookup_omap_Some. by exists val.
  - apply fill_map_to_list_None in Hfill as (f & v & Hv & Hbad).
    destruct (Hparses f v Hv) as [? ?]. congruence.
Qed.

Lemma elem_of_expired_fields t c field :
  field ∈ expired_fields o t c ↔
  ∃ val seconds,
    hash_at c (ttlIndexKey o) !! field = Some val ∧
    Number val = Some seconds ∧ seconds * 1000 < t.
Proof.
  unfold expired_fields.
  destruct (fill _ ∅ _) as [ttlMap|] eqn:Hfill.
  2:{ apply fill_None in Hfill as (? & ? & _ & ?). done. }
  apply fill_map_to_list in Hfill as ->.
  rewrite elem_of_fields_expired. split.
  - intros (ttl & Hlookup & Hexp).
    apply lookup_omap_Some in Hlookup as (val & [= <-] & Hval).
    unfold expired in Hexp. destruct (Number val) as [seconds|] eqn:Hnum; [|done].
    exists val, seconds. split_and!; [done|done|]. by apply Z.ltb_lt.
  - intros (val & seconds & Hval & Hnum & Hlt). exists (Some seconds). split.
    + apply lookup_omap_Some. exists val. by rewrite Hnum.
    + simpl. by apply Z.ltb_lt.
Qed.

(** ** [set] and [delete] *)

Lemma set_not_ready key e w :
  isReady (client w) = false → set o key e w = (Throw ClientNotReady, w).
Proof. intros Hready. unfold set, assertClientIsReady, bind. by rewrite Hready. Qed.

Lemma revalidateTag_not_ready tag w :
  isReady (client w) = false → revalidateTag o tag w = (Throw ClientNotReady, w).
Proof. intros Hready. unfold revalidateTag, assertClientIsReady, bind. by rewrite Hready. Qed.

(** Opens [set] on a ready client into the cases of its strategy, of the
    lifespan and of the tag list. *)
Ltac set_cases Hready Hstrategy key e w :=
  let result := fresh "result" in
  let Hrun := fresh "Hrun" in
  remember (set o key e w) as result eqn:Hrun;
  unfold set, assertClientIsReady in Hrun; unfold bind at 1 in Hrun;
  rewrite Hready in Hrun;
  let s := fresh "s" in
  destruct (keyExpirationStrategy o) as [| |s] eqn:?; [| |by destruct (Hstrategy s)];
  destruct (lifespan e) as [?l|] eqn:?; destruct (tags e) as [|?t ?ts] eqn:?;
  unfold bind, ret, promise_all, promise_all2, optional in Hrun; simpl in Hrun;
  subst result; simpl.

Lemma drop_issued (l : list Command) (extra : list Command) :
  drop (length l) (l ++ extra) = extra.
Proof. apply drop_app_length. Qed.

(** C1, as the code has it.  [set] writes the TTL Index field of the key
    exactly when the entry has a lifespan, whatever its tag list; the field
    then holds [expireAt]. *)
Theorem set_writes_ttl_index_iff_lifespan key e w :
  isReady (client w) = true →
  (∀ s, keyExpirationStrategy o ≠ Unrecognized s) →
  tagIndexKey o ≠ ttlIndexKey o →
  ((∃ val, RHSet (ttlIndexKey o) key val ∈ issued_since w (set o key e w).2)
   ↔ is_Some (lifespan e)) ∧
  (∀ l, lifespan e = Some l →
     RHSet (ttlIndexKey o) key (Number_toString (expireAt l))
       ∈ issued_since w (set o key e w).2 ∧
     hash_at (client (set o key e w).2) (ttlIndexKey o) !! key
       = Some (Number_toString (expireAt l))).
Proof.
  intros Hready Hstrategy Hne. unfold issued_since.
  set_cases Hready Hstrategy key e w;
    rewrite <- ?app_assoc, ?drop_issued; simpl;
    (split; [split|]).
  all: try (intros _; eexists; find_elem).
  all: try (intros l' [= <-]; split; [find_elem|];
            rewrite ?hash_at_put_hash, ?decide_True by done;
            apply lookup_insert_eq).
  all: try (intros l'; discriminate).
  all: try (intros _; by eexists).
  all: intros (val & Hin);
    repeat (apply elem_of_cons in Hin as [Heq|Hin]); try discriminate;
    try (injection Heq; congruence); by apply elem_of_nil in Hin.
Qed.

Lemma distinct_keys_ne :
  distinct_keys o →
  tagIndexKey o ≠ ttlIndexKey o ∧
  revalidatedTagsKey o ≠ tagIndexKey o ∧
  revalidatedTagsKey o ≠ ttlIndexKey o.
Proof.
  unfold distinct_keys. rewrite !NoDup_cons, !elem_of_cons. intros (H1 & H2 & _).
  split_and!; intros Heq; [apply H1|apply H1|apply H2]; rewrite Heq; auto.
Qed.

Lemma set_stores key e w :
  isReady (client w) = true →
  (∀ s, keyExpirationStrategy o ≠ Unrecognized s) →
  (set o key e w).1 = Ok () ∧
  isReady (client (set o key e w).2) = true ∧
  now (set o key e w).2 = now w ∧
  strings (client (set o key e w).2) !! (keyPrefix o +:+ key)
    = Some (JSON_stringify e, expireAt <$> lifespan e) ∧
  (∀ other, other ≠ tagIndexKey o → other ≠ ttlIndexKey o →
     hash_at (client (set o key e w).2) other = hash_at (client w) other).
Proof.
  intros Hready Hstrategy.
  set_cases Hready Hstrategy key e w; unfold string_at; simpl;
    rewrite ?lookup_insert_eq; simpl; rewrite ?lookup_insert_eq;
    (split_and!; try done);
    intros other Htag Httl; by rewrite ?hash_at_put_hash, ?decide_False by done.
Qed.

(** C6.  After [set key e], a [get key] made while the lifespan of [e] has
    not run out returns [e], if [e] goes through JSON unchanged and no tag
    of [e] or of the context has a marker later than [e]'s [lastModified]. *)
Theorem set_then_get_round_trip key e ctx w t :
  distinct_keys o →
  isReady (client w) = true →
  (∀ s, keyExpirationStrategy o ≠ Unrecognized s) →
  JSON_stringify e ≠ "" →
  JSON_parse (JSON_stringify e) = Some (Some e) →
  ¬ revalidated_since o (client w) (lastModified e) (tags e ++ implicitTags ctx) →
  (∀ l, lifespan e = Some l → t < expireAt l * 1000) →
  (set o key e w).1 = Ok () ∧
  (get o key ctx (at_time t (set o key e w).2)).1 = Ok (Some e).
Proof.
  intros Hdistinct Hready Hstrategy Hne Hparse Hfresh Halive.
  destruct (distinct_keys_ne Hdistinct) as (_ & Hmt & Hml).
  destruct (set_stores key e w Hready Hstrategy) as (Hok & Hready' & _ & Hstored & Hother).
  split; [done|].
  rewrite get_run by done. simpl.
  unfold string_at. rewrite Hstored. unfold alive. simpl.
  assert (match expireAt <$> lifespan e with
          | Some at_seconds => t <? at_seconds * 1000
          | None => true
          end = true) as ->.
  { destruct (lifespan e) as [l|]; [|done]. simpl. apply Z.ltb_lt. by apply Halive. }
  rewrite decide_False by done. rewrite Hparse.
  case_decide; [done|].
  rewrite check_revalidationTimes_run. simpl.
  destruct (existsb _ _) eqn:Hex; [|done].
  apply existsb_revalidated_after_1 in Hex. exfalso. apply Hfresh.
  destruct Hex as (tag & s & n & Hin & Hs & Hn & Hlt).
  exists tag, s, n. split_and!; try done.
  by rewrite <- (Hother (revalidatedTagsKey o)).
Qed.

(** [delete] runs its three commands whatever the client says of itself. *)
Lemma delete_run key w :
  delete o key w =
  (Ok (),
   {| client :=
        put_hash (ttlIndexKey o)
          (base.delete key
             (hash_at (put_hash (tagIndexKey o)
                         (base.delete key (hash_at (client w) (tagIndexKey o)))
                         (put_strings (base.delete (keyPrefix o +:+ key) (strings (client w)))
                            (client w)))
                (ttlIndexKey o)))
          (put_hash (tagIndexKey o)
             (base.delete key (hash_at (client w) (tagIndexKey o)))
             (put_strings (base.delete (keyPrefix o +:+ key) (strings (client w)))
                (client w)));
      now := now w;
      issued := ((issued w ++ [RUnlink [keyPrefix o +:+ key]])
                 ++ [RHDel (tagIndexKey o) [key]]) ++ [RHDel (ttlIndexKey o) [key]] |}).
Proof. reflexivity. Qed.

(** ** [revalidateTag] *)

Lemma promise_all_two_world {W} (a b : M W unit) (w : W) :
  (promise_all [a; b] w).2 = (b (a w).2).2.
Proof.
  unfold promise_all, promise_all2, ret.
  destruct (a w) as [ra w1]. simpl. by destruct (b w1) as [rb w2].
Qed.

Lemma revalidateTag_world tag w :
  isReady (client w) = true →
  ∃ cmds,
    (revalidateTag o tag w).2 =
    (revalidateSharedKeys o
       (revalidateTags o tag
          {| client := marked o tag (now w) (client w); now := now w;
             issued := issued w ++ cmds |}).2).2.
Proof.
  intros Hready. unfold revalidateTag, assertClientIsReady, marked.
  unfold bind at 1. rewrite Hready.
  destruct (isImplicitTag tag).
  - exists [RHSet (revalidatedTagsKey o) tag (Number_toString (now w))].
    unfold bind, Date_now. issue. apply promise_all_two_world.
  - exists []. unfold bind, ret. rewrite app_nil_r.
    rewrite <- promise_all_two_world. by destruct w.
Qed.

Lemma hash_at_marked tag t c key :
  key ≠ revalidatedTagsKey o → hash_at (marked o tag t c) key = hash_at c key.
Proof.
  intros Hne. unfold marked. destruct (isImplicitTag tag); [|done].
  by rewrite hash_at_put_hash, decide_False.
Qed.

Lemma strings_marked tag t c : strings (marked o tag t c) = strings c.
Proof. unfold marked. by destruct (isImplicitTag tag). Qed.

(** The two sweeps of one call, one after the other. *)
Lemma revalidateTag_sweeps tag w :
  distinct_keys o →
  isReady (client w) = true →
  ∃ c1,
    purged o (tagged_fields o tag (marked o tag (now w) (client w)))
      (marked o tag (now w) (client w)) c1 ∧
    purged o (expired_fields o (now w) c1) c1 (client (revalidateTag o tag w).2) ∧
    now (revalidateTag o tag w).2 = now w.
Proof.
  intros Hdistinct Hready.
  destruct (distinct_keys_ne Hdistinct) as (Hne & _ & _).
  destruct (revalidateTag_world tag w Hready) as [cmds ->].
  set (w0 := {| client := marked o tag (now w) (client w); now := now w;
                issued := issued w ++ cmds |}).
  destruct (revalidateTags_run tag w0 Hne) as [Hnow1 Hpurged1].
  destruct (revalidateSharedKeys_run (revalidateTags o tag w0).2 Hne)
    as (_ & Hnow2 & Hpurged2).
  exists (client (revalidateTags o tag w0).2).
  rewrite Hnow1 in Hpurged2. split_and!; [done|done|].
  by rewrite Hnow2, Hnow1.
Qed.

(** The store after a call does not depend on which sweep went first: what
    is gone is what either sweep finds in the store as the call found it
    (after the marker was written), as when both scans come before any
    deletion. *)
Lemma revalidateTag_removes_union tag w field :
  distinct_keys o →
  isReady (client w) = true →
  let c0 := marked o tag (now w) (client w) in
  let gone := field ∈ tagged_fields o tag c0 ∨ field ∈ expired_fields o (now w) c0 in
  let c2 := client (revalidateTag o tag w).2 in
  hash_at c2 (tagIndexKey o) !! field
    = (if decide gone then None else hash_at c0 (tagIndexKey o) !! field) ∧
  hash_at c2 (ttlIndexKey o) !! field
    = (if decide gone then None else hash_at c0 (ttlIndexKey o) !! field) ∧
  strings c2 !! (keyPrefix o +:+ field)
    = (if decide gone then None else strings c0 !! (keyPrefix o +:+ field)).
Proof.
  intros Hdistinct Hready c0 gone c2.
  destruct (revalidateTag_sweeps tag w Hdistinct Hready) as (c1 & Htags & Httl & _).
  fold c0 in Htags. fold c2 in Httl.
  rewrite !(purged_hash_lookup _ _ _ _ _ Httl) by auto.
  rewrite (purged_payload_lookup _ _ _ _ Httl).
  rewrite !(purged_hash_lookup _ _ _ _ _ Htags) by auto.
  rewrite (purged_payload_lookup _ _ _ _ Htags).
  destruct (decide (field ∈ tagged_fields o tag c0)) as [Hin|Hkept].
  { assert gone as Hgone by (by left). by repeat case_decide. }
  assert (field ∈ expired_fields o (now w) c1 ↔ field ∈ expired_fields o (now w) c0) as Hsame.
  { rewrite !elem_of_expired_fields.
    setoid_rewrite (purged_hash_lookup _ _ _ _ _ Htags); [|by right].
    by rewrite decide_False. }
  destruct (decide (field ∈ expired_fields o (now w) c1)) as [Hin|Hout].
  - assert gone as Hgone by (right; by apply Hsame). by repeat case_decide.
  - assert (¬ gone) as Hgone by (intros [?|?]; [done|]; by apply Hout, Hsame).
    by repeat case_decide.
Qed.

(** C5.  A key whose TTL Index value lies in the past is gone after any
    [revalidateTag]: from the Tag Index, from the TTL Index and from the
    payload keys. *)
Theorem revalidateTag_collects_expired tag w field val seconds :
  distinct_keys o →
  isReady (client w) = true →
  hash_at (client w) (ttlIndexKey o) !! field = Some val →
  Number val = Some seconds →
  seconds * 1000 < now w →
  hash_at (client (revalidateTag o tag w).2) (tagIndexKey o) !! field = None ∧
  hash_at (client (revalidateTag o tag w).2) (ttlIndexKey o) !! field = None ∧
  strings (client (revalidateTag o tag w).2) !! (keyPrefix o +:+ field) = None.
Proof.
  intros Hdistinct Hready Hval Hnum Hpast.
  destruct (distinct_keys_ne Hdistinct) as (Hne & Hmt & Hml).
  destruct (revalidateTag_sweeps tag w Hdistinct Hready) as (c1 & Htags & Httl & _).
  set (c0 := marked o tag (now w) (client w)) in *.
  rewrite !(purged_hash_lookup _ _ _ _ _ Httl) by auto.
  rewrite (purged_payload_lookup _ _ _ _ Httl).
  destruct (decide (field ∈ expired_fields o (now w) c1)) as [Hin|Hout]; [done|].
  rewrite !(purged_hash_lookup _ _ _ _ _ Htags) by auto.
  rewrite (purged_payload_lookup _ _ _ _ Htags).
  destruct (decide (field ∈ tagged_fields o tag c0)) as [Hin|Hkept]; [done|].
  exfalso. apply Hout. apply elem_of_expired_fields. exists val, seconds.
  split_and!; [|done|done].
  rewrite (purged_hash_lookup _ _ _ _ _ Htags) by auto.
  rewrite decide_False by done. unfold c0. by rewrite hash_at_marked.
Qed.

(** ** What every reachable world satisfies *)

Lemma set_unrecognized key e w s :
  isReady (client w) = true →
  keyExpirationStrategy o = Unrecognized s →
  set o key e w = (Throw (InvalidKeyExpirationStrategy s), w).
Proof.
  intros Hready Hs. unfold set, assertClientIsReady, bind. by rewrite Hready, Hs.
Qed.

Lemma set_tag_index key e w field val :
  tagIndexKey o ≠ ttlIndexKey o →
  hash_at (client (set o key e w).2) (tagIndexKey o) !! field = Some val →
  hash_at (client w) (tagIndexKey o) !! field = Some val ∨
  val = JSON_stringify_tags (tags e).
Proof.
  intros Hne.
  destruct (isReady (client w)) eqn:Hready; [|rewrite set_not_ready by done; auto].
  assert ((∃ s, keyExpirationStrategy o = Unrecognized s) ∨
          (∀ s, keyExpirationStrategy o ≠ Unrecognized s)) as [[s Hs]|Hok].
  { destruct (keyExpirationStrategy o); eauto. }
  { rewrite (set_unrecognized _ _ _ s) by done. auto. }
  set_cases Hready Hok key e w;
    unfold string_at; simpl; rewrite ?lookup_insert_eq; simpl;
    rewrite ?hash_at_put_hash, ?hash_at_put_strings, ?hash_at_put_hash;
    repeat case_decide; try done; auto;
    rewrite ?hash_at_put_strings;
    (destruct (decide (key = field)) as [->|Hfield];
     [rewrite lookup_insert_eq; intros [= <-]; by right
     |rewrite lookup_insert_ne by done; auto]).
Qed.

Lemma tag_index_parses_hashes c c' :
  hash_at c' (tagIndexKey o) = hash_at c (tagIndexKey o) →
  tag_index_parses o c → tag_index_parses o c'.
Proof. unfold tag_index_parses. intros ->. done. Qed.

Lemma tag_index_parses_purged D c c' :
  purged o D c c' → tag_index_parses o c → tag_index_parses o c'.
Proof.
  intros Hpurged Hparses field val.
  rewrite (purged_hash_lookup _ _ _ _ _ Hpurged) by auto.
  case_decide; [done|]. apply Hparses.
Qed.

Lemma reachable_tag_index_parses w :
  distinct_keys o →
  (∀ tagList, JSON_parse_tags (JSON_stringify_tags tagList) = Some tagList) →
  reachable o w → tag_index_parses o (client w).
Proof.
  intros Hdistinct Hcodec Hreach.
  destruct (distinct_keys_ne Hdistinct) as (Hne & Hmt & Hml).
  induction Hreach as [ready t|call w Hreach IH|t w Hreach IH|b w Hreach IH].
  - intros field val. unfold hash_at. simpl. by rewrite lookup_empty.
  - destruct call as [key ctx|key e|tag|key]; cbn [after].
    + apply (tag_index_parses_hashes (client w)); [|done].
      unfold hash_at. by rewrite (proj1 (get_frame key ctx w)).
    + intros field val Hval.
      apply set_tag_index in Hval as [Hold| ->]; [by apply (IH field)|by rewrite Hcodec|done].
    + destruct (isReady (client w)) eqn:Hready;
        [|by rewrite revalidateTag_not_ready].
      destruct (revalidateTag_sweeps tag w Hdistinct Hready) as (c1 & Htags & Httl & _).
      apply (tag_index_parses_purged _ _ _ Httl).
      apply (tag_index_parses_purged _ _ _ Htags).
      apply (tag_index_parses_hashes (client w)); [|done].
      by rewrite hash_at_marked.
    + rewrite delete_run. cbn [snd client]. intros field val.
      rewrite !hash_at_put_hash.
      rewrite (decide_False (P := ttlIndexKey o = tagIndexKey o)) by done.
      rewrite decide_True by done.
      intros [_ Hval]%lookup_delete_Some. by apply (IH field).
  - done.
  - done.
Qed.

(** ** Calling [revalidateTag] twice *)


Lemma isReady_marked tag t c : isReady (marked o tag t c) = isReady c.
Proof. unfold marked. by destruct (isImplicitTag tag). Qed.



End Facts.

Section Examples.
Import Reference.

(** C2, as stated, fails: the payload "{" is not empty and does not parse,
    and [get] rejects instead of reporting a miss. *)
Lemma get_malformed_payload_is_no_miss :
  string_at t_start (client broken_payload_world) "k" = Some "{" ∧
  JSON_parse "{" = None ∧
  (get default_options "k" (mkMeta []) broken_payload_world).1 = Throw JsonSyntaxError ∧
  (get default_options "k" (mkMeta []) broken_payload_world).1 ≠ Ok None.
Proof. vm_compute. split_and!; done. Qed.

(** A payload that parses to [null] is a miss. *)
Lemma get_null_payload_is_a_miss :
  (get default_options "k" (mkMeta []) null_payload_world).1 = Ok None.
Proof. vm_compute. reflexivity. Qed.

Lemma get_malformed_payload_throws_witness :
  get default_options "k" (mkMeta []) broken_payload_world
  = (Throw JsonSyntaxError,
     {| client := client broken_payload_world; now := t_start; issued := [RGet "k"] |}).
Proof.
  apply (get_malformed_payload_throws default_options "k" (mkMeta [])
           broken_payload_world "{"); [reflexivity|reflexivity|discriminate|reflexivity].
Defined.

(** C1, as stated, fails: [tagless_page] has a lifespan and no tag, and its
    [set] writes the TTL Index field all the same. *)
Lemma set_tagless_entry_writes_ttl_index :
  ¬ ((∃ val, RHSet "__sharedTagsTtl__" "k" val
              ∈ issued_since fresh_world (set default_options "k" tagless_page fresh_world).2)
     ↔ (is_Some (lifespan tagless_page) ∧ tags tagless_page ≠ [])).
Proof.
  intros [Hwritten _].
  destruct Hwritten as [_ Htags]; [|by apply Htags].
  exists "1700000060". vm_compute. find_elem.
Qed.

Lemma set_writes_ttl_index_iff_lifespan_witness :
  hash_at (client (set default_options "k" tagless_page fresh_world).2) "__sharedTagsTtl__"
    !! "k" = Some "1700000060".
Proof.
  destruct (set_writes_ttl_index_iff_lifespan default_options "k" tagless_page fresh_world)
    as [_ Hfield]; [reflexivity|discriminate|by vm_compute|].
  exact (proj2 (Hfield (mkLifespan 1700000060) eq_refl)).
Defined.

(** C3 at the failing input: on a client that is not ready, [delete] does
    not throw; it hands its three commands to the client. *)
Lemma delete_skips_readiness_check :
  isReady (client offline_world) = false ∧
  (delete default_options "k" offline_world).1 ≠ Throw ClientNotReady ∧
  (delete default_options "k" offline_world).1 = Ok () ∧
  issued (delete default_options "k" offline_world).2
    = [RUnlink ["k"]; RHDel "__sharedTags__" ["k"]; RHDel "__sharedTagsTtl__" ["k"]] ∧
  strings (client (delete default_options "k" offline_world).2) !! "k" = None.
Proof. vm_compute. split_and!; try reflexivity. discriminate. Qed.

Lemma set_then_get_round_trip_witness :
  (set default_options "k" tagged_page fresh_world).1 = Ok () ∧
  (get default_options "k" (mkMeta ["_N_T_/blog"])
     (at_time (t_start + 59999) (set default_options "k" tagged_page fresh_world).2)).1
  = Ok (Some tagged_page).
Proof.
  apply (set_then_get_round_trip default_options "k" tagged_page
           (mkMeta ["_N_T_/blog"]) fresh_world (t_start + 59999)).
  - unfold distinct_keys. vm_compute. repeat constructor; set_solver.
  - reflexivity.
  - discriminate.
  - by vm_compute.
  - vm_compute. reflexivity.
  - intros (tag & s & n & _ & Hs & _). vm_compute in Hs. discriminate.
  - intros l [= <-]. vm_compute. reflexivity.
Defined.

Lemma get_checks_revalidation_markers_witness :
  (get default_options "k" (mkMeta ["_N_T_/blog"]) stale_world).1 = Ok None ∧
  strings (client (get default_options "k" (mkMeta ["_N_T_/blog"]) stale_world).2) !! "k"
    = None ∧
  RUnlink ["k"]
    ∈ issued_since stale_world (get default_options "k" (mkMeta ["_N_T_/blog"]) stale_world).2.
Proof.
  apply (get_checks_revalidation_markers default_options "k" (mkMeta ["_N_T_/blog"])
           stale_world (stringify tagged_page) tagged_page).
  - reflexivity.
  - reflexivity.
  - vm_compute. reflexivity.
  - by vm_compute.
  - vm_compute. reflexivity.
  - discriminate.
  - exists "_N_T_/blog", "1700000001000", 1700000001000.
    split_and!; [set_solver|vm_compute; reflexivity|vm_compute; reflexivity|reflexivity].
Defined.

Lemma default_keys_distinct : distinct_keys default_options.
Proof. unfold distinct_keys. vm_compute. repeat constructor; set_solver. Qed.

Lemma revalidateTag_collects_expired_witness :
  hash_at (client (revalidateTag default_options "other" expired_world).2)
    "__sharedTags__" !! "k" = None ∧
  hash_at (client (revalidateTag default_options "other" expired_world).2)
    "__sharedTagsTtl__" !! "k" = None ∧
  strings (client (revalidateTag default_options "other" expired_world).2) !! "k" = None.
Proof.
  apply (revalidateTag_collects_expired default_options "other" expired_world
           "k" "1700000060" 1700000060).
  - exact default_keys_distinct.
  - reflexivity.
  - vm_compute. reflexivity.
  - vm_compute. reflexivity.
  - reflexivity.
Defined.


(** The clock matters to the second call: [expired_world] a minute and a
    second earlier is a world where "k" has not expired; a call then keeps
    its TTL Index field, and a second call at the time of [expired_world]
    removes it. *)
Lemma revalidateTag_later_collects_more :
  hash_at (client (revalidateTag default_options "other" (at_time t_start expired_world)).2)
    "__sharedTagsTtl__" !! "k" = Some "1700000060" ∧
  hash_at (client (revalidateTag default_options "other"
                     (at_time (t_start + 61000)
                        (revalidateTag default_options "other"
                           (at_time t_start expired_world)).2)).2)
    "__sharedTagsTtl__" !! "k" = None.
Proof. vm_compute. split; reflexivity. Qed.

End Examples.
End RedisStringsFacts.

(** * More on the redis-strings handler *)

Module RedisStringsMore.
Import RedisStrings RedisStringsFacts.

Section More.
Context `{Imports} (o : CreateRedisStringsHandlerOptions).
Implicit Types (w : World) (c : RedisClient).

(** Opens [set] on a ready client into the cases of its strategy, of the
    lifespan and of the tag list, the expiry command carried out. *)
Ltac open_set Hready Hstrategy key e w :=
  let result := fresh "result" in
  let Hrun := fresh "Hrun" in
  remember (set o key e w) as result eqn:Hrun;
  unfold set, assertClientIsReady in Hrun; unfold bind at 1 in Hrun;
  rewrite Hready in Hrun;
  let s := fresh "s" in
  destruct (keyExpirationStrategy o) as [| |s] eqn:?; [| |by destruct (Hstrategy s)];
  destruct (lifespan e) as [?l|] eqn:?; destruct (tags e) as [|?t ?ts] eqn:?;
  unfold bind, ret, promise_all, promise_all2, optional in Hrun; simpl in Hrun;
  subst result; simpl;
  unfold string_at; simpl; rewrite ?lookup_insert_eq; simpl.

(** ** Readiness and configuration *)

(** X4.  On a client that is not ready, [get], [set] and [revalidateTag]
    throw the not-ready error and leave the world as it was: no command is
    handed to the client. *)
Theorem not_ready_fails_fast key ctx e tag w :
  isReady (client w) = false →
  get o key ctx w = (Throw ClientNotReady, w) ∧
  set o key e w = (Throw ClientNotReady, w) ∧
  revalidateTag o tag w = (Throw ClientNotReady, w).
Proof.
  intros Hready. split_and!.
  - by apply get_not_ready.
  - by apply set_not_ready.
  - by apply revalidateTag_not_ready.
Qed.

(** X5.  A [keyExpirationStrategy] other than the two known ones is found
    out by [set], not before: every [set] on a ready client throws the
    invalid-strategy error and hands no command to the client. *)
Theorem set_rejects_unrecognized_strategy key e w s :
  isReady (client w) = true →
  keyExpirationStrategy o = Unrecognized s →
  set o key e w = (Throw (InvalidKeyExpirationStrategy s), w).
Proof. apply set_unrecognized. Qed.

(** ** What [set] writes *)

(** X6.  [set] writes the Tag Index field of the key exactly when the tag
    list of the entry is not empty; the field then holds the serialised tag
    list. *)
Theorem set_writes_tag_index_iff_tagged key e w :
  isReady (client w) = true →
  (∀ s, keyExpirationStrategy o ≠ Unrecognized s) →
  tagIndexKey o ≠ ttlIndexKey o →
  ((∃ val, RHSet (tagIndexKey o) key val ∈ issued_since w (set o key e w).2)
   ↔ tags e ≠ []) ∧
  (tags e ≠ [] →
     RHSet (tagIndexKey o) key (JSON_stringify_tags (tags e))
       ∈ issued_since w (set o key e w).2 ∧
     hash_at (client (set o key e w).2) (tagIndexKey o) !! key
       = Some (JSON_stringify_tags (tags e))).
Proof.
  intros Hready Hstrategy Hne. unfold issued_since.
  open_set Hready Hstrategy key e w;
    rewrite <- ?app_assoc, ?drop_issued; simpl;
    (split; [split|]).
  all: try (intros _; eexists; find_elem).
  all: try (intros _; split; [find_elem|];
            rewrite ?hash_at_put_hash, ?hash_at_put_strings;
            rewrite ?(decide_False (P := ttlIndexKey o = tagIndexKey o)) by done;
            rewrite ?hash_at_put_hash, ?decide_True by done;
            apply lookup_insert_eq).
  all: try done.
  all: intros (val & Hin);
    repeat (apply elem_of_cons in Hin as [Heq|Hin]); try discriminate;
    try (injection Heq; congruence); by apply elem_of_nil in Hin.
Qed.

(** X7.  The two expiration strategies leave the same store: [set] with
    [EXAT] and [set] with [EXPIREAT] return alike and end with the same
    payload, expiry and index fields, though by different commands. *)
Theorem set_strategies_leave_same_store key e w :
  (set (with_strategy EXAT o) key e w).1 = (set (with_strategy EXPIREAT o) key e w).1 ∧
  client (set (with_strategy EXAT o) key e w).2
  = client (set (with_strategy EXPIREAT o) key e w).2.
Proof.
  destruct (isReady (client w)) eqn:Hready; [|by rewrite !set_not_ready].
  unfold set, assertClientIsReady. unfold bind at 1 3 5 7. rewrite Hready. simpl.
  destruct (lifespan e) as [l|]; destruct (tags e) as [|t ts];
    unfold bind, ret, promise_all, promise_all2, optional; simpl;
    unfold string_at; simpl; rewrite ?lookup_insert_eq; simpl;
    (split; [done|]);
    unfold put_hash, put_strings, hash_at; simpl;
    by rewrite ?insert_insert_eq.
Qed.

(** X8.  [set] touches nothing but its own key: every other string key,
    every field of another key in any hash, and every hash other than the
    Tag Index and the TTL Index is as before. *)
Theorem set_touches_only_its_key key e w :
  (∀ other, other ≠ keyPrefix o +:+ key →
     strings (client (set o key e w).2) !! other = strings (client w) !! other) ∧
  (∀ name field, field ≠ key →
     hash_at (client (set o key e w).2) name !! field = hash_at (client w) name !! field) ∧
  (∀ name, name ≠ tagIndexKey o → name ≠ ttlIndexKey o →
     hash_at (client (set o key e w).2) name = hash_at (client w) name).
Proof.
  destruct (isReady (client w)) eqn:Hready; [|by rewrite set_not_ready].
  assert ((∃ s, keyExpirationStrategy o = Unrecognized s) ∨
          (∀ s, keyExpirationStrategy o ≠ Unrecognized s)) as [[s Hs]|Hok].
  { destruct (keyExpirationStrategy o); eauto. }
  { by rewrite (set_unrecognized _ _ _ _ s). }
  open_set Hready Hok key e w; split_and!.
  all: try (intros other Hother; by rewrite ?lookup_insert_ne by done).
  all: try (intros name Htag Httl;
            by rewrite ?hash_at_put_hash, ?hash_at_put_strings, ?hash_at_put_hash,
                 ?decide_False by done).
  all: intros name field Hfield;
    rewrite ?hash_at_put_hash, ?hash_at_put_strings, ?hash_at_put_hash;
    repeat case_decide; subst;
    rewrite ?hash_at_put_strings, ?lookup_insert_ne by done; congruence.
Qed.

(** X9.  [set] of an entry without tags leaves the Tag Index as it was, and
    [set] of an entry without lifespan leaves the TTL Index as it was: a
    field an earlier [set] wrote for the key stays. *)
Theorem set_keeps_earlier_index_fields key e w :
  tagIndexKey o ≠ ttlIndexKey o →
  (tags e = [] →
     hash_at (client (set o key e w).2) (tagIndexKey o) = hash_at (client w) (tagIndexKey o)) ∧
  (lifespan e = None →
     hash_at (client (set o key e w).2) (ttlIndexKey o) = hash_at (client w) (ttlIndexKey o)).
Proof.
  intros Hne.
  destruct (isReady (client w)) eqn:Hready; [|by rewrite set_not_ready].
  assert ((∃ s, keyExpirationStrategy o = Unrecognized s) ∨
          (∀ s, keyExpirationStrategy o ≠ Unrecognized s)) as [[s Hs]|Hok].
  { destruct (keyExpirationStrategy o); eauto. }
  { by rewrite (set_unrecognized _ _ _ _ s). }
  open_set Hready Hok key e w; (split; [intros Htags|intros Hlife]); try done;
    by rewrite ?hash_at_put_hash, ?hash_at_put_strings, ?hash_at_put_hash,
         ?decide_False by done.
Qed.

(** ** What [get] and [delete] do *)

(** X10.  [get] hands the client at most three commands: the read of the
    payload, then the read of the markers, then the unlink of the payload
    key; nothing else is ever written by a [get]. *)
Theorem get_issues_at_most_three_commands key ctx w :
  issued_since w (get o key ctx w).2 = [] ∨
  issued_since w (get o key ctx w).2 = [RGet (keyPrefix o +:+ key)] ∨
  ∃ fields,
    issued_since w (get o key ctx w).2
    = [RGet (keyPrefix o +:+ key); RHmGet (revalidatedTagsKey o) fields] ∨
    issued_since w (get o key ctx w).2
    = [RGet (keyPrefix o +:+ key); RHmGet (revalidatedTagsKey o) fields;
       RUnlink [keyPrefix o +:+ key]].
Proof.
  unfold issued_since.
  destruct (isReady (client w)) eqn:Hready.
  2:{ left. rewrite get_not_ready by done. simpl. apply drop_all. }
  rewrite (get_run _ _ _ _ Hready). simpl.
  destruct (string_at _ _ _) as [payload|]; [|right; left; apply drop_issued].
  case_decide; [right; left; apply drop_issued|].
  destruct (JSON_parse payload) as [[cacheValue|]|];
    [|right; left; apply drop_issued|right; left; apply drop_issued].
  case_decide; [right; left; apply drop_issued|].
  right. right. exists (new_Set (tags cacheValue ++ implicitTags ctx)).
  rewrite check_revalidationTimes_run. destruct (existsb _ _); simpl.
  - right. by rewrite <- !app_assoc, drop_issued.
  - left. by rewrite <- !app_assoc, drop_issued.
Qed.



(** X13.  After [delete key], a [get key] is a miss, whatever the store
    held before. *)
Theorem get_after_delete_misses key ctx w :
  isReady (client w) = true →
  (get o key ctx (delete o key w).2).1 = Ok None.
Proof.
  intros Hready. rewrite delete_run. cbn [snd].
  rewrite get_run by done. cbn [client now].
  unfold string_at. simpl. by rewrite lookup_delete_eq.
Qed.

(** ** What [revalidateTag] does *)

Lemma promise_all_two_result {W} (a b : M W unit) (w : W) :
  (promise_all [a; b] w).1
  = match (a w).1 with
    | Ok _ => (b (a w).2).1
    | Throw e => Throw e
    end.
Proof.
  unfold promise_all, promise_all2, ret.
  destruct (a w) as [ra w1]. simpl. destruct (b w1) as [rb w2]. simpl.
  destruct ra; [|done]. by destruct rb as [[]|].
Qed.

Lemma revalidateTags_result tag w :
  (revalidateTags o tag w).1
  = match fill JSON_parse_tags ∅ (map_to_list (hash_at (client w) (tagIndexKey o))) with
    | Some _ => Ok ()
    | None => Throw JsonSyntaxError
    end.
Proof.
  unfold revalidateTags. unfold bind.
  destruct (scan_run JSON_parse_tags (tagIndexKey o) (revalidateTagQuerySize o) w)
    as [cmds ->].
  destruct (fill JSON_parse_tags ∅ _) as [tagsMap|]; [|done].
  by destruct (fields_tagged tag tagsMap).
Qed.

Lemma revalidateTag_result tag w :
  tagIndexKey o ≠ ttlIndexKey o →
  isReady (client w) = true →
  ∃ cmds,
    (revalidateTag o tag w).1
    = (revalidateTags o tag
         {| client := marked o tag (now w) (client w); now := now w;
            issued := issued w ++ cmds |}).1.
Proof.
  intros Hne Hready. unfold revalidateTag, assertClientIsReady, marked.
  unfold bind at 1. rewrite Hready.
  destruct (isImplicitTag tag).
  - exists [RHSet (revalidatedTagsKey o) tag (Number_toString (now w))].
    unfold bind, Date_now, client_hSet, command. cbn beta iota zeta.
    rewrite promise_all_two_result.
    destruct (revalidateTags o tag _) as [[[]|e] w1]; [|done]. simpl.
    by destruct (revalidateSharedKeys_run o w1 Hne) as [-> _].
  - exists []. unfold bind at 1, ret. rewrite promise_all_two_result, app_nil_r.
    replace {| client := client w; now := now w; issued := issued w |} with w
      by (by destruct w).
    destruct (revalidateTags o tag w) as [[[]|e] w1]; [|done]. simpl.
    by destruct (revalidateSharedKeys_run o w1 Hne) as [-> _].
Qed.

Lemma fill_is_Some_iff_parses c :
  is_Some (fill JSON_parse_tags ∅ (map_to_list (hash_at c (tagIndexKey o))))
  ↔ tag_index_parses o c.
Proof.
  split.
  - intros [tagsMap Hfill] field val Hval.
    destruct (JSON_parse_tags val) as [tagList|] eqn:Hparse; [by eexists|].
    assert (fill JSON_parse_tags ∅ (map_to_list (hash_at c (tagIndexKey o))) = None)
      as Hnone by (apply fill_map_to_list_None; eauto).
    congruence.
  - intros Hparses.
    destruct (fill JSON_parse_tags ∅ _) as [tagsMap|] eqn:Hfill; [by eexists|].
    apply fill_map_to_list_None in Hfill as (field & val & Hval & Hbad).
    destruct (Hparses field val Hval) as [? ?]. congruence.
Qed.

(** X14.  On a ready client [revalidateTag] always comes back: it resolves
    exactly when every value of the Tag Index parses, and rejects with the
    parser's error otherwise; the scan loops never fail to finish. *)
Theorem revalidateTag_resolves_iff_index_parses tag w :
  distinct_keys o →
  isReady (client w) = true →
  ((revalidateTag o tag w).1 = Ok () ↔ tag_index_parses o (client w)) ∧
  ((revalidateTag o tag w).1 = Ok () ∨
   (revalidateTag o tag w).1 = Throw JsonSyntaxError).
Proof.
  intros Hdistinct Hready.
  destruct (distinct_keys_ne o Hdistinct) as (Hne & Hmt & Hml).
  destruct (revalidateTag_result tag w Hne Hready) as [cmds ->].
  rewrite revalidateTags_result. cbn [client].
  assert (tag_index_parses o (marked o tag (now w) (client w))
          ↔ tag_index_parses o (client w)) as Hsame.
  { unfold tag_index_parses. by rewrite hash_at_marked. }
  rewrite <- Hsame, <- fill_is_Some_iff_parses.
  destruct (fill JSON_parse_tags ∅ _) as [tagsMap|]; split; auto.
  - split; [by eexists|done].
  - split; [done|]. by intros [? ?].
Qed.

Lemma markers_after_revalidateTag tag w :
  distinct_keys o →
  isReady (client w) = true →
  hash_at (client (revalidateTag o tag w).2) (revalidatedTagsKey o)
  = if isImplicitTag tag
    then <[tag := Number_toString (now w)]> (hash_at (client w) (revalidatedTagsKey o))
    else hash_at (client w) (revalidatedTagsKey o).
Proof.
  intros Hdistinct Hready.
  destruct (distinct_keys_ne o Hdistinct) as (Hne & Hmt & Hml).
  destruct (revalidateTag_sweeps o tag w Hdistinct Hready) as (c1 & Htags & Httl & _).
  rewrite (proj2 (purged_other_hash o _ _ _ _ Httl Hmt Hml)).
  rewrite (proj2 (purged_other_hash o _ _ _ _ Htags Hmt Hml)).
  unfold marked. destruct (isImplicitTag tag); [|done].
  by rewrite hash_at_put_hash, decide_True.
Qed.

(** X15.  [revalidateTag] writes the marker of an implicit tag, with the
    time of the call, and writes no marker for any other tag; the markers
    of all other tags are as before. *)
Theorem revalidateTag_marks_implicit_tags_only tag w :
  distinct_keys o →
  isReady (client w) = true →
  hash_at (client (revalidateTag o tag w).2) (revalidatedTagsKey o)
  = if isImplicitTag tag
    then <[tag := Number_toString (now w)]> (hash_at (client w) (revalidatedTagsKey o))
    else hash_at (client w) (revalidatedTagsKey o).
Proof. apply markers_after_revalidateTag. Qed.

Lemma tagged_gone tag w field val tagList :
  distinct_keys o →
  isReady (client w) = true →
  tag_index_parses o (client w) →
  hash_at (client w) (tagIndexKey o) !! field = Some val →
  JSON_parse_tags val = Some tagList →
  tag ∈ tagList →
  hash_at (client (revalidateTag o tag w).2) (tagIndexKey o) !! field = None ∧
  hash_at (client (revalidateTag o tag w).2) (ttlIndexKey o) !! field = None ∧
  strings (client (revalidateTag o tag w).2) !! (keyPrefix o +:+ field) = None.
Proof.
  intros Hdistinct Hready Hparses Hval Hparse Htag.
  destruct (distinct_keys_ne o Hdistinct) as (Hne & Hmt & Hml).
  destruct (revalidateTag_removes_union o tag w field Hdistinct Hready) as (H1 & H2 & H3).
  assert (field ∈ tagged_fields o tag (marked o tag (now w) (client w))) as Hin.
  { eapply elem_of_tagged_fields_2; [| |done|done].
    - unfold tag_index_parses. by rewrite hash_at_marked.
    - by rewrite hash_at_marked. }
  rewrite H1, H2, H3. by rewrite !decide_True by (by left).
Qed.

(** X16.  When every value of the Tag Index parses, [revalidateTag tag]
    removes every key whose tag list holds [tag]: its Tag Index field, its
    TTL Index field and its payload. *)
Theorem revalidateTag_removes_tagged_keys tag w field val tagList :
  distinct_keys o →
  isReady (client w) = true →
  tag_index_parses o (client w) →
  hash_at (client w) (tagIndexKey o) !! field = Some val →
  JSON_parse_tags val = Some tagList →
  tag ∈ tagList →
  hash_at (client (revalidateTag o tag w).2) (tagIndexKey o) !! field = None ∧
  hash_at (client (revalidateTag o tag w).2) (ttlIndexKey o) !! field = None ∧
  strings (client (revalidateTag o tag w).2) !! (keyPrefix o +:+ field) = None.
Proof. apply tagged_gone. Qed.

(** X17.  [revalidateTag] removes nothing else: a key whose tag list does
    not hold the tag and whose TTL Index value does not lie in the past
    keeps its Tag Index field, its TTL Index field and its payload. *)
Theorem revalidateTag_keeps_the_other_keys tag w field :
  distinct_keys o →
  isReady (client w) = true →
  (∀ val tagList,
     hash_at (client w) (tagIndexKey o) !! field = Some val →
     JSON_parse_tags val = Some tagList → tag ∉ tagList) →
  (∀ val seconds,
     hash_at (client w) (ttlIndexKey o) !! field = Some val →
     Number val = Some seconds → now w ≤ seconds * 1000) →
  hash_at (client (revalidateTag o tag w).2) (tagIndexKey o) !! field
    = hash_at (client w) (tagIndexKey o) !! field ∧
  hash_at (client (revalidateTag o tag w).2) (ttlIndexKey o) !! field
    = hash_at (client w) (ttlIndexKey o) !! field ∧
  strings (client (revalidateTag o tag w).2) !! (keyPrefix o +:+ field)
    = strings (client w) !! (keyPrefix o +:+ field).
Proof.
  intros Hdistinct Hready Huntagged Hfresh.
  destruct (distinct_keys_ne o Hdistinct) as (Hne & Hmt & Hml).
  destruct (revalidateTag_removes_union o tag w field Hdistinct Hready) as (H1 & H2 & H3).
  rewrite H1, H2, H3. rewrite !hash_at_marked, strings_marked by done.
  rewrite !decide_False; [done|..].
  all: intros [Hin|Hin].
  all: try (apply elem_of_tagged_fields_1 in Hin as (val & tagList & Hval & Hparse & Htag);
            rewrite hash_at_marked in Hval by done;
            by apply (Huntagged val tagList)).
  all: apply elem_of_expired_fields in Hin as (val & seconds & Hval & Hnum & Hlt);
       rewrite hash_at_marked in Hval by done;
       specialize (Hfresh val seconds Hval Hnum); lia.
Qed.

(** X18.  When a value of the Tag Index does not parse, [revalidateTag]
    rejects and its tag sweep removes nothing, not even keys that carry the
    tag: every key whose TTL Index value does not lie in the past is kept. *)
Theorem revalidateTag_on_damaged_index tag w bad val field :
  distinct_keys o →
  isReady (client w) = true →
  hash_at (client w) (tagIndexKey o) !! bad = Some val →
  JSON_parse_tags val = None →
  (∀ val seconds,
     hash_at (client w) (ttlIndexKey o) !! field = Some val →
     Number val = Some seconds → now w ≤ seconds * 1000) →
  (revalidateTag o tag w).1 = Throw JsonSyntaxError ∧
  hash_at (client (revalidateTag o tag w).2) (tagIndexKey o) !! field
    = hash_at (client w) (tagIndexKey o) !! field ∧
  hash_at (client (revalidateTag o tag w).2) (ttlIndexKey o) !! field
    = hash_at (client w) (ttlIndexKey o) !! field ∧
  strings (client (revalidateTag o tag w).2) !! (keyPrefix o +:+ field)
    = strings (client w) !! (keyPrefix o +:+ field).
Proof.
  intros Hdistinct Hready Hbad Hparse Hfresh.
  destruct (distinct_keys_ne o Hdistinct) as (Hne & Hmt & Hml).
  assert (fill JSON_parse_tags ∅
            (map_to_list (hash_at (marked o tag (now w) (client w)) (tagIndexKey o)))
          = None) as Hfill.
  { apply fill_map_to_list_None. exists bad, val. by rewrite hash_at_marked. }
  split.
  - destruct (revalidateTag_result tag w Hne Hready) as [cmds ->].
    rewrite revalidateTags_result. cbn [client]. by rewrite Hfill.
  - destruct (revalidateTag_removes_union o tag w field Hdistinct Hready) as (H1 & H2 & H3).
    rewrite H1, H2, H3. rewrite !hash_at_marked, strings_marked by done.
    rewrite !decide_False; [done|..].
    all: intros [Hin|Hin].
    all: try (unfold tagged_fields in Hin; rewrite Hfill in Hin;
              by apply elem_of_nil in Hin).
    all: apply elem_of_expired_fields in Hin as (v & seconds & Hval & Hnum & Hlt);
         rewrite hash_at_marked in Hval by done;
         specialize (Hfresh v seconds Hval Hnum); lia.
Qed.

(** ** How the operations compose *)

Lemma set_store key e w :
  isReady (client w) = true →
  (∀ s, keyExpirationStrategy o ≠ Unrecognized s) →
  tagIndexKey o ≠ ttlIndexKey o →
  strings (client (set o key e w).2)
    = <[keyPrefix o +:+ key := (JSON_stringify e, expireAt <$> lifespan e)]>
        (strings (client w)) ∧
  hash_at (client (set o key e w).2) (tagIndexKey o)
    = (if decide (tags e = []) then hash_at (client w) (tagIndexKey o)
       else <[key := JSON_stringify_tags (tags e)]> (hash_at (client w) (tagIndexKey o))) ∧
  hash_at (client (set o key e w).2) (ttlIndexKey o)
    = match lifespan e with
      | Some l => <[key := Number_toString (expireAt l)]> (hash_at (client w) (ttlIndexKey o))
      | None => hash_at (client w) (ttlIndexKey o)
      end ∧
  (∀ other, other ≠ tagIndexKey o → other ≠ ttlIndexKey o →
     hash_at (client (set o key e w).2) other = hash_at (client w) other).
Proof.
  intros Hready Hstrategy Hne.
  open_set Hready Hstrategy key e w; split_and!.
  all: try (intros other Htag Httl;
            by rewrite ?hash_at_put_hash, ?hash_at_put_strings, ?hash_at_put_hash,
                 ?decide_False by done).
  all: rewrite ?insert_insert_eq; try done.
  all: rewrite ?hash_at_put_hash, ?hash_at_put_strings, ?hash_at_put_hash;
       repeat case_decide; try done; congruence.
Qed.

Lemma isReady_after_revalidateTag tag w :
  distinct_keys o →
  isReady (client (revalidateTag o tag w).2) = isReady (client w).
Proof.
  intros Hdistinct.
  destruct (isReady (client w)) eqn:Hready; [|by rewrite revalidateTag_not_ready].
  destruct (revalidateTag_sweeps o tag w Hdistinct Hready) as (c1 & Htags & Httl & _).
  destruct Httl as (-> & _). destruct Htags as (-> & _). by rewrite isReady_marked.
Qed.

(** X19.  A tagged entry does not outlive the revalidation of one of its
    tags: from any reachable world, [set key e] followed by [revalidateTag]
    of a tag of [e] makes every later [get key] a miss. *)
Theorem tagged_entry_is_gone_after_revalidateTag key e ctx tag w t :
  distinct_keys o →
  (∀ tagList, JSON_parse_tags (JSON_stringify_tags tagList) = Some tagList) →
  reachable o w →
  isReady (client w) = true →
  (∀ s, keyExpirationStrategy o ≠ Unrecognized s) →
  tag ∈ tags e →
  (get o key ctx (at_time t (revalidateTag o tag (set o key e w).2).2)).1 = Ok None.
Proof.
  intros Hdistinct Hcodec Hreach Hready Hstrategy Htag.
  destruct (distinct_keys_ne o Hdistinct) as (Hne & _ & _).
  destruct (set_stores o key e w Hready Hstrategy) as (_ & Hready1 & _).
  destruct (set_store key e w Hready Hstrategy Hne) as (_ & Hfield & _).
  assert (reachable o (set o key e w).2) as Hreach1
    by apply (reachable_call o (CallSet key e) w Hreach).
  pose proof (reachable_tag_index_parses o _ Hdistinct Hcodec Hreach1) as Hparses.
  rewrite decide_False in Hfield by (intros Hnil; rewrite Hnil in Htag; by apply elem_of_nil in Htag).
  destruct (tagged_gone tag (set o key e w).2 key (JSON_stringify_tags (tags e)) (tags e))
    as (_ & _ & Hgone); [done|done|done| |done|done|].
  { rewrite Hfield. apply lookup_insert_eq. }
  rewrite get_run by (simpl; by rewrite isReady_after_revalidateTag).
  simpl. unfold string_at. by rewrite Hgone.
Qed.

(** X20.  The revalidation of an implicit tag is seen by the next [get]
    that names the tag in its context: an entry last modified before the
    call is unlinked and reported as a miss. *)
Theorem implicit_tag_revalidation_reaches_get tag key ctx w t payload cacheValue :
  distinct_keys o →
  isReady (client w) = true →
  isImplicitTag tag = true →
  Number_parseInt "" = None →
  Number_parseInt (Number_toString (now w)) = Some (now w) →
  string_at t (client (revalidateTag o tag w).2) (keyPrefix o +:+ key) = Some payload →
  payload ≠ "" →
  JSON_parse payload = Some (Some cacheValue) →
  tag ∈ implicitTags ctx →
  lastModified cacheValue < now w →
  (get o key ctx (at_time t (revalidateTag o tag w).2)).1 = Ok None ∧
  strings (client (get o key ctx (at_time t (revalidateTag o tag w).2)).2)
    !! (keyPrefix o +:+ key) = None.
Proof.
  intros Hdistinct Hready Himplicit Hempty Hround Hpayload Hne Hparse Htag Hbefore.
  pose proof (markers_after_revalidateTag tag w Hdistinct Hready) as Hmarkers.
  rewrite Himplicit in Hmarkers.
  rewrite get_run by (simpl; by rewrite isReady_after_revalidateTag).
  cbn [client now at_time]. rewrite Hpayload. simpl.
  rewrite decide_False by done. rewrite Hparse.
  rewrite decide_False.
  2:{ rewrite new_Set_nil. intros Hnil.
      assert (tag ∈ tags cacheValue ++ implicitTags ctx) as Hin
        by (apply elem_of_app; by right).
      rewrite Hnil in Hin. by apply elem_of_nil in Hin. }
  rewrite check_revalidationTimes_run.
  rewrite (existsb_revalidated_after_2 o) ; [simpl; split; [done|apply lookup_delete_eq]|done|].
  exists tag, (Number_toString (now w)), (now w). split_and!; [|by rewrite Hmarkers, lookup_insert_eq|done|done].
  apply elem_of_app. by right.
Qed.

(** X21.  An entry set without lifespan over an entry that had one keeps
    that earlier TTL Index field: the payload itself never expires, yet any
    [revalidateTag] after the earlier expiry time removes it. *)
Theorem entry_without_lifespan_is_collected_by_earlier_ttl key e1 e2 tag w t l :
  distinct_keys o →
  isReady (client w) = true →
  (∀ s, keyExpirationStrategy o ≠ Unrecognized s) →
  Number (Number_toString (expireAt l)) = Some (expireAt l) →
  lifespan e1 = Some l →
  lifespan e2 = None →
  expireAt l * 1000 < t →
  strings (client (set o key e2 (set o key e1 w).2).2) !! (keyPrefix o +:+ key)
    = Some (JSON_stringify e2, None) ∧
  strings (client (revalidateTag o tag
                     (at_time t (set o key e2 (set o key e1 w).2).2)).2)
    !! (keyPrefix o +:+ key) = None.
Proof.
  intros Hdistinct Hready Hstrategy Hnumber Hlife1 Hlife2 Hpast.
  destruct (distinct_keys_ne o Hdistinct) as (Hne & Hmt & Hml).
  destruct (set_stores o key e1 w Hready Hstrategy) as (_ & Hready1 & _).
  destruct (set_store key e1 w Hready Hstrategy Hne) as (_ & _ & Httl1 & _).
  destruct (set_stores o key e2 _ Hready1 Hstrategy) as (_ & Hready2 & _ & Hstored2 & _).
  destruct (set_store key e2 _ Hready1 Hstrategy Hne) as (_ & _ & Httl2 & _).
  rewrite Hlife1 in Httl1. rewrite Hlife2 in Httl2, Hstored2.
  split; [done|].
  set (w2 := at_time t (set o key e2 (set o key e1 w).2).2).
  destruct (revalidateTag_removes_union o tag w2 key Hdistinct Hready2) as (_ & _ & ->).
  rewrite decide_True; [done|]. right.
  apply elem_of_expired_fields. exists (Number_toString (expireAt l)), (expireAt l).
  split_and!; [|done|done].
  rewrite hash_at_marked by done. unfold w2. simpl.
  rewrite Httl2, Httl1. apply lookup_insert_eq.
Qed.

(** ** The page size of the scans *)

Lemma revalidateTags_page_size size tag w w' :
  client w = client w' → now w = now w' →
  (revalidateTags (with_query_size size o) tag w).1 = (revalidateTags o tag w').1 ∧
  client (revalidateTags (with_query_size size o) tag w).2
    = client (revalidateTags o tag w').2 ∧
  now (revalidateTags (with_query_size size o) tag w).2 = now (revalidateTags o tag w').2.
Proof.
  intros Hclient Hnow. unfold revalidateTags, bind.
  destruct (scan_run JSON_parse_tags (tagIndexKey (with_query_size size o))
              (revalidateTagQuerySize (with_query_size size o)) w) as [cmds ->].
  destruct (scan_run JSON_parse_tags (tagIndexKey o) (revalidateTagQuerySize o) w')
    as [cmds' ->].
  change (tagIndexKey (with_query_size size o)) with (tagIndexKey o).
  change (ttlIndexKey (with_query_size size o)) with (ttlIndexKey o).
  change (keyPrefix (with_query_size size o)) with (keyPrefix o).
  rewrite Hclient.
  destruct (fill JSON_parse_tags ∅ _) as [tagsMap|]; [|done].
  destruct (fields_tagged tag tagsMap); simpl; by rewrite ?Hclient, ?Hnow.
Qed.

Lemma revalidateSharedKeys_page_size size w w' :
  client w = client w' → now w = now w' →
  (revalidateSharedKeys (with_query_size size o) w).1 = (revalidateSharedKeys o w').1 ∧
  client (revalidateSharedKeys (with_query_size size o) w).2
    = client (revalidateSharedKeys o w').2.
Proof.
  intros Hclient Hnow. unfold revalidateSharedKeys, bind.
  destruct (scan_run (λ val, Some (Number val)) (ttlIndexKey (with_query_size size o))
              (revalidateTagQuerySize (with_query_size size o)) w) as [cmds ->].
  destruct (scan_run (λ val, Some (Number val)) (ttlIndexKey o)
              (revalidateTagQuerySize o) w') as [cmds' ->].
  change (tagIndexKey (with_query_size size o)) with (tagIndexKey o).
  change (ttlIndexKey (with_query_size size o)) with (ttlIndexKey o).
  change (keyPrefix (with_query_size size o)) with (keyPrefix o).
  rewrite Hclient.
  destruct (fill _ ∅ _) as [ttlMap|]; [|done].
  unfold Date_now. simpl. rewrite Hnow.
  destruct (fields_expired (now w') ttlMap); simpl; by rewrite ?Hclient.
Qed.

Lemma sweeps_page_size size tag w :
  (promise_all [revalidateTags (with_query_size size o) tag;
                revalidateSharedKeys (with_query_size size o)] w).1
  = (promise_all [revalidateTags o tag; revalidateSharedKeys o] w).1 ∧
  client (promise_all [revalidateTags (with_query_size size o) tag;
                       revalidateSharedKeys (with_query_size size o)] w).2
  = client (promise_all [revalidateTags o tag; revalidateSharedKeys o] w).2.
Proof.
  rewrite !promise_all_two_result, !promise_all_two_world.
  destruct (revalidateTags_page_size size tag w w eq_refl eq_refl) as (Hr & Hc & Hn).
  destruct (revalidateSharedKeys_page_size size _ _ Hc Hn) as (Hr' & Hc').
  rewrite Hr, Hr', Hc'. done.
Qed.

(** X22.  The page size of the scans does not show in the outcome:
    [revalidateTag] returns alike and leaves the same store for every
    [revalidateTagQuerySize], the loops reading the whole of both indexes
    page by page. *)
Theorem revalidateTag_whatever_the_page_size size tag w :
  (revalidateTag (with_query_size size o) tag w).1 = (revalidateTag o tag w).1 ∧
  client (revalidateTag (with_query_size size o) tag w).2
  = client (revalidateTag o tag w).2.
Proof.
  destruct (isReady (client w)) eqn:Hready; [|by rewrite !revalidateTag_not_ready].
  assert (∀ o', revalidateTag o' tag w
                = promise_all [revalidateTags o' tag; revalidateSharedKeys o']
                    (if isImplicitTag tag
                     then {| client := put_hash (revalidatedTagsKey o')
                                         (<[tag := Number_toString (now w)]>
                                            (hash_at (client w) (revalidatedTagsKey o')))
                                         (client w);
                             now := now w;
                             issued := issued w ++
                               [RHSet (revalidatedTagsKey o') tag (Number_toString (now w))] |}
                     else w)) as Hrun.
  { intros o'. unfold revalidateTag, assertClientIsReady, bind. rewrite Hready.
    by destruct (isImplicitTag tag). }
  rewrite !Hrun.
  change (revalidatedTagsKey (with_query_size size o)) with (revalidatedTagsKey o).
  apply sweeps_page_size.
Qed.

(** ** What the store holds *)

Lemma get_strings_kept key ctx w k entry :
  strings (client (get o key ctx w).2) !! k = Some entry →
  strings (client w) !! k = Some entry.
Proof.
  destruct (isReady (client w)) eqn:Hready; [|by rewrite get_not_ready].
  rewrite (get_run _ _ _ _ Hready). simpl.
  destruct (string_at _ _ _) as [payload|]; [|done].
  case_decide; [done|].
  destruct (JSON_parse payload) as [[cacheValue|]|]; [|done|done].
  case_decide; [done|].
  rewrite check_revalidationTimes_run. destruct (existsb _ _); [|done]. simpl.
  by intros [_ ?]%lookup_delete_Some.
Qed.

Lemma delete_store key w :
  tagIndexKey o ≠ ttlIndexKey o →
  strings (client (delete o key w).2) = base.delete (keyPrefix o +:+ key) (strings (client w)) ∧
  hash_at (client (delete o key w).2) (tagIndexKey o)
    = base.delete key (hash_at (client w) (tagIndexKey o)) ∧
  hash_at (client (delete o key w).2) (ttlIndexKey o)
    = base.delete key (hash_at (client w) (ttlIndexKey o)) ∧
  (∀ other, other ≠ tagIndexKey o → other ≠ ttlIndexKey o →
     hash_at (client (delete o key w).2) other = hash_at (client w) other).
Proof.
  intros Hne. rewrite delete_run. cbn [snd client]. split_and!.
  - done.
  - rewrite !hash_at_put_hash, hash_at_put_strings.
    rewrite (decide_False (P := ttlIndexKey o = tagIndexKey o)) by done.
    by rewrite decide_True.
  - rewrite !hash_at_put_hash, hash_at_put_strings.
    rewrite (decide_True (P := ttlIndexKey o = ttlIndexKey o)) by done.
    by rewrite decide_False.
  - intros other Htag Httl.
    by rewrite !hash_at_put_hash, !decide_False, hash_at_put_strings by done.
Qed.

Lemma written_by_handler_kept c c' :
  (∀ k entry, strings c' !! k = Some entry → strings c !! k = Some entry) →
  (∀ field val, hash_at c' (tagIndexKey o) !! field = Some val →
     hash_at c (tagIndexKey o) !! field = Some val) →
  (∀ field val, hash_at c' (ttlIndexKey o) !! field = Some val →
     hash_at c (ttlIndexKey o) !! field = Some val) →
  (∀ field val, hash_at c' (revalidatedTagsKey o) !! field = Some val →
     hash_at c (revalidatedTagsKey o) !! field = Some val) →
  written_by_handler o c → written_by_handler o c'.
Proof.
  intros Hs Ht Hl Hm (Is & It & Il & Im). split_and!.
  - intros k val expiry Hk. by apply Is, Hs.
  - intros field val Hf. by apply (It field), Ht.
  - intros field val Hf. by apply (Il field), Hl.
  - intros field val Hf. by apply Im, Hm.
Qed.

Lemma reachable_written_by_handler w :
  distinct_keys o → reachable o w → written_by_handler o (client w).
Proof.
  intros Hdistinct Hreach.
  destruct (distinct_keys_ne o Hdistinct) as (Hne & Hmt & Hml).
  induction Hreach as [ready t|call w Hreach IH|t w Hreach IH|b w Hreach IH].
  - unfold written_by_handler, hash_at. simpl.
    split_and!; intros ? ?; rewrite ?lookup_empty; done.
  - destruct call as [key ctx|key e|tag|key]; cbn [after].
    + apply (written_by_handler_kept (client w)); [| | | |done].
      * apply get_strings_kept.
      * unfold hash_at. by rewrite (proj1 (get_frame o key ctx w)).
      * unfold hash_at. by rewrite (proj1 (get_frame o key ctx w)).
      * unfold hash_at. by rewrite (proj1 (get_frame o key ctx w)).
    + destruct (isReady (client w)) eqn:Hready; [|by rewrite set_not_ready].
      assert ((∃ s, keyExpirationStrategy o = Unrecognized s) ∨
              (∀ s, keyExpirationStrategy o ≠ Unrecognized s)) as [[s Hs]|Hok].
      { destruct (keyExpirationStrategy o); eauto. }
      { by rewrite (set_unrecognized _ _ _ _ s). }
      destruct (set_store key e w Hready Hok Hne) as (Hstr & Htag & Httl & Hother).
      destruct IH as (Is & It & Il & Im). split_and!.
      * intros k val expiry. rewrite Hstr.
        destruct (decide (keyPrefix o +:+ key = k)) as [<-|Hk].
        -- rewrite lookup_insert_eq. intros [= <- <-]. by exists key, e.
        -- rewrite lookup_insert_ne by done. apply Is.
      * intros field val. rewrite Htag. case_decide as Htags; [apply It|].
        destruct (decide (key = field)) as [<-|Hk].
        -- rewrite lookup_insert_eq. intros [= <-]. by exists (tags e).
        -- rewrite lookup_insert_ne by done. apply It.
      * intros field val. rewrite Httl. destruct (lifespan e) as [l|]; [|apply Il].
        destruct (decide (key = field)) as [<-|Hk].
        -- rewrite lookup_insert_eq. intros [= <-]. by eexists.
        -- rewrite lookup_insert_ne by done. apply Il.
      * intros field val. rewrite Hother by done. apply Im.
    + destruct (isReady (client w)) eqn:Hready; [|by rewrite revalidateTag_not_ready].
      destruct (revalidateTag_sweeps o tag w Hdistinct Hready) as (c1 & Hp1 & Hp2 & _).
      pose proof (markers_after_revalidateTag tag w Hdistinct Hready) as Hmarkers.
      destruct IH as (Is & It & Il & Im). split_and!.
      * intros k val expiry.
        destruct Hp2 as (_ & -> & _). rewrite lookup_foldr_delete. case_decide; [done|].
        destruct Hp1 as (_ & -> & _). rewrite lookup_foldr_delete. case_decide; [done|].
        rewrite strings_marked. apply Is.
      * intros field val.
        rewrite (purged_hash_lookup o _ _ _ _ _ Hp2) by auto. case_decide; [done|].
        rewrite (purged_hash_lookup o _ _ _ _ _ Hp1) by auto. case_decide; [done|].
        rewrite hash_at_marked by done. apply It.
      * intros field val.
        rewrite (purged_hash_lookup o _ _ _ _ _ Hp2) by auto. case_decide; [done|].
        rewrite (purged_hash_lookup o _ _ _ _ _ Hp1) by auto. case_decide; [done|].
        rewrite hash_at_marked by done. apply Il.
      * intros field val. rewrite Hmarkers.
        destruct (isImplicitTag tag) eqn:Himplicit; [|apply Im].
        destruct (decide (tag = field)) as [<-|Hk].
        -- rewrite lookup_insert_eq. intros [= <-]. split; [done|by eexists].
        -- rewrite lookup_insert_ne by done. apply Im.
    + destruct (delete_store key w Hne) as (Hstr & Htag & Httl & Hother).
      apply (written_by_handler_kept (client w)); [| | | |done].
      * intros k entry. rewrite Hstr. by intros [_ ?]%lookup_delete_Some.
      * intros field val. rewrite Htag. by intros [_ ?]%lookup_delete_Some.
      * intros field val. rewrite Httl. by intros [_ ?]%lookup_delete_Some.
      * intros field val. by rewrite Hother.
  - done.
  - done.
Qed.

(** X23.  A store that only the handler has written to holds nothing but
    what [set] and [revalidateTag] put there: payloads are serialised
    entries and expire with their lifespan, Tag Index values are serialised
    tag lists that are not empty, TTL Index values and markers are numbers,
    and markers exist for implicit tags only. *)
Theorem reachable_store_is_written_by_handler w :
  distinct_keys o → reachable o w → written_by_handler o (client w).
Proof. apply reachable_written_by_handler. Qed.

Lemma set_then_get key e ctx w t :
  distinct_keys o →
  isReady (client w) = true →
  (∀ s, keyExpirationStrategy o ≠ Unrecognized s) →
  JSON_stringify e ≠ "" →
  JSON_parse (JSON_stringify e) = Some (Some e) →
  ¬ revalidated_since o (client w) (lastModified e) (tags e ++ implicitTags ctx) →
  (∀ l, lifespan e = Some l → t < expireAt l * 1000) →
  (get o key ctx (at_time t (set o key e w).2)).1 = Ok (Some e).
Proof.
  intros Hdistinct Hready Hstrategy Hne Hparse Hfresh Halive.
  destruct (distinct_keys_ne o Hdistinct) as (_ & Hmt & Hml).
  destruct (set_stores o key e w Hready Hstrategy) as (_ & Hready' & _ & Hstored & Hother).
  rewrite get_run by done. simpl.
  unfold string_at. rewrite Hstored. unfold alive. simpl.
  assert (match expireAt <$> lifespan e with
          | Some at_seconds => t <? at_seconds * 1000
          | None => true
          end = true) as ->.
  { destruct (lifespan e) as [l|]; [|done]. simpl. apply Z.ltb_lt. by apply Halive. }
  rewrite decide_False by done. rewrite Hparse.
  case_decide; [done|].
  rewrite check_revalidationTimes_run. simpl.
  destruct (existsb _ _) eqn:Hex; [|done].
  apply existsb_revalidated_after_1 in Hex. exfalso. apply Hfresh.
  destruct Hex as (tag & s & n & Hin & Hs & Hn & Hlt).
  exists tag, s, n. split_and!; try done.
  by rewrite <- (Hother (revalidatedTagsKey o)).
Qed.

End More.

Section MoreExamples.
Import Reference.

Lemma not_ready_fails_fast_witness :
  get default_options "k" (mkMeta []) offline_world = (Throw ClientNotReady, offline_world) ∧
  set default_options "k" tagged_page offline_world = (Throw ClientNotReady, offline_world) ∧
  revalidateTag default_options "posts" offline_world = (Throw ClientNotReady, offline_world).
Proof.
  apply (not_ready_fails_fast default_options "k" (mkMeta []) tagged_page "posts"
           offline_world).
  reflexivity.
Defined.

Lemma set_rejects_unrecognized_strategy_witness :
  set (with_strategy (Unrecognized "PXAT") default_options) "k" tagged_page fresh_world
  = (Throw (InvalidKeyExpirationStrategy "PXAT"), fresh_world).
Proof.
  apply (set_rejects_unrecognized_strategy (with_strategy (Unrecognized "PXAT") default_options)
           "k" tagged_page fresh_world "PXAT"); reflexivity.
Defined.

Lemma set_writes_tag_index_iff_tagged_witness :
  ((∃ val, RHSet "__sharedTags__" "k" val
             ∈ issued_since fresh_world (set default_options "k" tagged_page fresh_world).2)
   ↔ tags tagged_page ≠ []) ∧
  (tags tagged_page ≠ [] →
     RHSet "__sharedTags__" "k" (stringify_tags ["posts"])
       ∈ issued_since fresh_world (set default_options "k" tagged_page fresh_world).2 ∧
     hash_at (client (set default_options "k" tagged_page fresh_world).2) "__sharedTags__"
       !! "k" = Some (stringify_tags ["posts"])).
Proof.
  exact (set_writes_tag_index_iff_tagged default_options "k" tagged_page fresh_world
           eq_refl ltac:(discriminate) ltac:(by vm_compute)).
Defined.

Lemma set_keeps_earlier_index_fields_witness :
  (tags lasting_page = [] →
     hash_at (client (set default_options "k" lasting_page expired_world).2) "__sharedTags__"
     = hash_at (client expired_world) "__sharedTags__") ∧
  (lifespan lasting_page = None →
     hash_at (client (set default_options "k" lasting_page expired_world).2)
       "__sharedTagsTtl__"
     = hash_at (client expired_world) "__sharedTagsTtl__").
Proof.
  apply (set_keeps_earlier_index_fields default_options "k" lasting_page expired_world).
  by vm_compute.
Defined.


Lemma get_after_delete_misses_witness :
  (get default_options "k" (mkMeta [])
     (delete default_options "k" (at_time t_start expired_world)).2).1 = Ok None.
Proof.
  apply (get_after_delete_misses default_options "k" (mkMeta [])
           (at_time t_start expired_world)).
  reflexivity.
Defined.

Lemma revalidateTag_resolves_iff_index_parses_witness :
  ((revalidateTag default_options "posts" damaged_index_world).1 = Ok ()
   ↔ tag_index_parses default_options (client damaged_index_world)) ∧
  ((revalidateTag default_options "posts" damaged_index_world).1 = Ok () ∨
   (revalidateTag default_options "posts" damaged_index_world).1 = Throw JsonSyntaxError).
Proof.
  apply (revalidateTag_resolves_iff_index_parses default_options "posts" damaged_index_world).
  - exact default_keys_distinct.
  - reflexivity.
Defined.

Lemma revalidateTag_marks_implicit_tags_only_witness :
  hash_at (client (revalidateTag default_options "_N_T_/blog" stale_world).2)
    (revalidatedTagsKey default_options)
  = if isImplicitTag "_N_T_/blog"
    then <["_N_T_/blog" := Number_toString (now stale_world)]>
           (hash_at (client stale_world) (revalidatedTagsKey default_options))
    else hash_at (client stale_world) (revalidatedTagsKey default_options).
Proof.
  apply (revalidateTag_marks_implicit_tags_only default_options "_N_T_/blog" stale_world).
  - exact default_keys_distinct.
  - reflexivity.
Defined.

Lemma revalidateTag_removes_tagged_keys_witness :
  hash_at (client (revalidateTag default_options "posts"
                     (after default_options (CallSet "k" tagged_page) fresh_world)).2)
    "__sharedTags__" !! "k" = None ∧
  hash_at (client (revalidateTag default_options "posts"
                     (after default_options (CallSet "k" tagged_page) fresh_world)).2)
    "__sharedTagsTtl__" !! "k" = None ∧
  strings (client (revalidateTag default_options "posts"
                     (after default_options (CallSet "k" tagged_page) fresh_world)).2)
    !! "k" = None.
Proof.
  apply (revalidateTag_removes_tagged_keys default_options "posts"
           (after default_options (CallSet "k" tagged_page) fresh_world)
           "k" (stringify_tags ["posts"]) ["posts"]).
  - exact default_keys_distinct.
  - reflexivity.
  - apply reachable_tag_index_parses.
    + exact default_keys_distinct.
    + exact ReferenceFacts.parse_stringify_tags.
    + apply reachable_call. apply reachable_start.
  - vm_compute. reflexivity.
  - vm_compute. reflexivity.
  - set_solver.
Defined.

Lemma revalidateTag_keeps_the_other_keys_witness :
  hash_at (client (revalidateTag default_options "posts" two_pages_world).2)
    "__sharedTags__" !! "j"
    = hash_at (client two_pages_world) "__sharedTags__" !! "j" ∧
  hash_at (client (revalidateTag default_options "posts" two_pages_world).2)
    "__sharedTagsTtl__" !! "j"
    = hash_at (client two_pages_world) "__sharedTagsTtl__" !! "j" ∧
  strings (client (revalidateTag default_options "posts" two_pages_world).2) !! "j"
    = strings (client two_pages_world) !! "j".
Proof.
  apply (revalidateTag_keeps_the_other_keys default_options "posts" two_pages_world "j").
  - exact default_keys_distinct.
  - reflexivity.
  - intros val tagList Hval Hparse. vm_compute in Hval. injection Hval as <-.
    vm_compute in Hparse. injection Hparse as <-. set_solver.
  - intros val seconds Hval Hnumber. vm_compute in Hval. injection Hval as <-.
    vm_compute in Hnumber. injection Hnumber as <-. by vm_compute.
Defined.

Lemma revalidateTag_on_damaged_index_witness :
  (revalidateTag default_options "posts" damaged_index_world).1 = Throw JsonSyntaxError ∧
  hash_at (client (revalidateTag default_options "posts" damaged_index_world).2)
    "__sharedTags__" !! "k"
    = hash_at (client damaged_index_world) "__sharedTags__" !! "k" ∧
  hash_at (client (revalidateTag default_options "posts" damaged_index_world).2)
    "__sharedTagsTtl__" !! "k"
    = hash_at (client damaged_index_world) "__sharedTagsTtl__" !! "k" ∧
  strings (client (revalidateTag default_options "posts" damaged_index_world).2) !! "k"
    = strings (client damaged_index_world) !! "k".
Proof.
  apply (revalidateTag_on_damaged_index default_options "posts" damaged_index_world
           "j" "[" "k").
  - exact default_keys_distinct.
  - reflexivity.
  - vm_compute. reflexivity.
  - vm_compute. reflexivity.
  - intros val seconds Hval Hnumber. vm_compute in Hval. injection Hval as <-.
    vm_compute in Hnumber. injection Hnumber as <-. by vm_compute.
Defined.

Lemma tagged_entry_is_gone_after_revalidateTag_witness :
  (get default_options "k" (mkMeta [])
     (at_time (t_start + 1)
        (revalidateTag default_options "posts"
           (set default_options "k" tagged_page fresh_world).2).2)).1 = Ok None.
Proof.
  apply (tagged_entry_is_gone_after_revalidateTag default_options "k" tagged_page
           (mkMeta []) "posts" fresh_world (t_start + 1)).
  - exact default_keys_distinct.
  - exact ReferenceFacts.parse_stringify_tags.
  - apply reachable_start.
  - reflexivity.
  - discriminate.
  - set_solver.
Defined.

Lemma implicit_tag_revalidation_reaches_get_witness :
  (get default_options "k" (mkMeta ["_N_T_/blog"])
     (at_time (t_start + 3000)
        (revalidateTag default_options "_N_T_/blog" stale_world).2)).1 = Ok None ∧
  strings (client (get default_options "k" (mkMeta ["_N_T_/blog"])
                     (at_time (t_start + 3000)
                        (revalidateTag default_options "_N_T_/blog" stale_world).2)).2)
    !! "k" = None.
Proof.
  apply (implicit_tag_revalidation_reaches_get default_options "_N_T_/blog" "k"
           (mkMeta ["_N_T_/blog"]) stale_world (t_start + 3000)
           (stringify tagged_page) tagged_page).
  - exact default_keys_distinct.
  - reflexivity.
  - reflexivity.
  - reflexivity.
  - vm_compute. reflexivity.
  - vm_compute. reflexivity.
  - by vm_compute.
  - vm_compute. reflexivity.
  - set_solver.
  - by vm_compute.
Defined.

Lemma entry_without_lifespan_is_collected_by_earlier_ttl_witness :
  strings (client (set default_options "k" lasting_page
                     (set default_options "k" tagged_page fresh_world).2).2) !! "k"
    = Some (stringify lasting_page, None) ∧
  strings (client (revalidateTag default_options "other"
                     (at_time (t_start + 61000)
                        (set default_options "k" lasting_page
                           (set default_options "k" tagged_page fresh_world).2).2)).2)
    !! "k" = None.
Proof.
  exact (entry_without_lifespan_is_collected_by_earlier_ttl default_options "k"
           tagged_page lasting_page "other" fresh_world (t_start + 61000)
           (mkLifespan 1700000060) default_keys_distinct eq_refl ltac:(discriminate)
           ltac:(vm_compute; reflexivity) eq_refl eq_refl ltac:(by vm_compute)).
Defined.

Lemma reachable_store_is_written_by_handler_witness :
  written_by_handler default_options
    (client (after default_options (CallRevalidateTag "_N_T_/blog")
               (after default_options (CallSet "k" tagged_page) fresh_world))).
Proof.
  apply (reachable_store_is_written_by_handler default_options).
  - exact default_keys_distinct.
  - apply reachable_call. apply reachable_call. apply reachable_start.
Defined.

End MoreExamples.

End RedisStringsMore.

(** * The composite handler over two redis-strings handlers *)

Module TwoStores.
Section TwoStores.
Context `{Imports} (o1 o2 : RedisStrings.CreateRedisStringsHandlerOptions).

Lemma two_stores_set strategy composite key e (w1 w2 : World) :
  Composite.createHandler (Composite.mkOptions (two_stores o1 o2) (Some strategy))
    = Ok composite →
  strategy e = 1 →
  set composite key e (w1, w2)
  = ((RedisStrings.set o2 key e w2).1, (w1, (RedisStrings.set o2 key e w2).2)).
Proof.
  intros [= <-] Hindex. cbn [set]. unfold Composite.composite_set.
  cbn [Composite.setStrategy Composite.handlers]. rewrite Hindex.
  change (Composite.at_index (two_stores o1 o2) 1)
    with (Some (member_on (@on_second) (RedisStrings.createHandler o2))).
  cbn [set member_on RedisStrings.createHandler]. unfold on_second. cbn [fst snd].
  by destruct (RedisStrings.set o2 key e w2).
Qed.

Lemma two_stores_get strategy composite key ctx (w1 w2 : World) :
  Composite.createHandler (Composite.mkOptions (two_stores o1 o2) (Some strategy))
    = Ok composite →
  isReady (client w1) = true →
  string_at (now w1) (client w1) (RedisStrings.keyPrefix o1 +:+ key) = None →
  (get composite key ctx (w1, w2)).1 = (RedisStrings.get o2 key ctx w2).1.
Proof.
  intros [= <-] Hready Hnone. cbn [get]. unfold Composite.composite_get.
  cbn [Composite.handlers two_stores Composite.get_loop get member_on
       RedisStrings.createHandler].
  unfold bind, on_first, on_second, ret. cbn [fst snd].
  rewrite (RedisStringsFacts.get_run o1 key ctx w1 Hready). rewrite Hnone. cbn [fst snd].
  destruct (RedisStrings.get o2 key ctx w2) as [[[v|]|err] w2']; done.
Qed.

(** X24.  Composed over two stores with a strategy that places the entry
    in the second, [set] leaves the first store untouched and writes the
    second; a later [get], finding nothing under the key in the first store,
    returns the entry from the second. *)
Theorem composite_over_two_stores_round_trip strategy composite key e ctx w1 w2 t :
  Composite.createHandler (Composite.mkOptions (two_stores o1 o2) (Some strategy))
    = Ok composite →
  strategy e = 1 →
  isReady (client w1) = true →
  string_at t (client w1) (RedisStrings.keyPrefix o1 +:+ key) = None →
  distinct_keys o2 →
  isReady (client w2) = true →
  (∀ s, RedisStrings.keyExpirationStrategy o2 ≠ RedisStrings.Unrecognized s) →
  JSON_stringify e ≠ "" →
  JSON_parse (JSON_stringify e) = Some (Some e) →
  ¬ revalidated_since o2 (client w2) (lastModified e) (tags e ++ implicitTags ctx) →
  (∀ l, lifespan e = Some l → t < expireAt l * 1000) →
  (set composite key e (w1, w2)).2.1 = w1 ∧
  (set composite key e (w1, w2)).2.2 = (RedisStrings.set o2 key e w2).2 ∧
  (get composite key ctx (both_at_time t (set composite key e (w1, w2)).2)).1
  = Ok (Some e).
Proof.
  intros Hcomposite Hindex Hready1 Hnone Hdistinct Hready2 Hstrategy Hne Hparse Hfresh Halive.
  rewrite (two_stores_set strategy composite key e w1 w2 Hcomposite Hindex).
  cbn [fst snd]. split; [done|]. split; [done|].
  unfold both_at_time. cbn [fst snd].
  rewrite (two_stores_get strategy composite key ctx _ _ Hcomposite) by done.
  by apply RedisStringsMore.set_then_get.
Qed.

End TwoStores.

Section TwoStoresExamples.
Import Reference.

Lemma composite_over_two_stores_round_trip_witness :
  ∃ composite,
    Composite.createHandler
      (Composite.mkOptions
         (two_stores RedisStrings.default_options RedisStrings.default_options)
         (Some (λ _, 1))) = Ok composite ∧
    (set composite "k" tagged_page (fresh_world, fresh_world)).2.1 = fresh_world ∧
    (set composite "k" tagged_page (fresh_world, fresh_world)).2.2
    = (RedisStrings.set RedisStrings.default_options "k" tagged_page fresh_world).2 ∧
    (get composite "k" (mkMeta [])
       (both_at_time (t_start + 59999)
          (set composite "k" tagged_page (fresh_world, fresh_world)).2)).1
    = Ok (Some tagged_page).
Proof.
  eexists. split; [reflexivity|].
  apply (composite_over_two_stores_round_trip RedisStrings.default_options
           RedisStrings.default_options (λ _, 1) _ "k" tagged_page (mkMeta [])
           fresh_world fresh_world (t_start + 59999)).
  - reflexivity.
  - reflexivity.
  - reflexivity.
  - reflexivity.
  - exact RedisStringsFacts.default_keys_distinct.
  - reflexivity.
  - discriminate.
  - by vm_compute.
  - vm_compute. reflexivity.
  - intros (tag & s & n & _ & Hs & _). vm_compute in Hs. discriminate.
  - intros l [= <-]. vm_compute. reflexivity.
Defined.

End TwoStoresExamples.

End TwoStores.
